(** * A shallow embedding of the torrent client core

    The development follows the Go sources file by file:
    - [request_strategy] embeds [request-strategy/order.go], the chunk
      request scheduler ([DoRequests], [allocatePendingChunks], the piece
      ordering [less]);
    - later modules embed the parts of [client.go] and of the bencode
      package that the verified properties talk about.

    Go [int], [int64], [uintptr] and [time.Duration] values are integers
    of [Z]; arithmetic that depends on input data wraps at 64 bits
    ([wrap64]).  A Go panic is the [Panic] outcome of the [Result] monad. *)

From Stdlib Require Import ZArith List Bool Lia Floats.
From stdpp Require Import gmap list sorting.

Local Open Scope Z_scope.

(** ** Panics and the result monad *)

Inductive panic : Type :=
  | ShouldOnlyAddOnce                      (* panic("should only add once") *)
  | PendingChunksRemaining (n : Z)         (* panic(pendingChunksRemaining) *)
  | RequestablePiecesRemaining (n : Z)     (* panic(rp.requestablePiecesRemaining) *)
  | NotDifferentiated                      (* multiless: MustLess on a tie *)
  | NilDereference                         (* dereference of a dangling pointer *)
  | IndexOutOfRange                        (* slice index out of range *)
  | DivideByZero.                          (* integer divide by zero *)

Inductive Result (A : Type) : Type :=
  | Ok (a : A)
  | Panic (why : panic).
Arguments Ok {A} a.
Arguments Panic {A} why.

Definition bind {A B} (m : Result A) (k : A -> Result B) : Result B :=
  match m with
  | Ok a => k a
  | Panic why => Panic why
  end.

Notation "'do' x <- m ; k" := (bind m (fun x => k))
  (at level 10, x name, m at level 100, k at level 200, only parsing).
Notation "'do' ' pat <- m ; k" := (bind m (fun x => match x with pat => k end))
  (at level 10, pat pattern, m at level 100, k at level 200, only parsing).

(** A loop over a slice whose body may panic. *)
Fixpoint foldM {A S} (body : S -> A -> Result S) (l : list A) (s : S) : Result S :=
  match l with
  | [] => Ok s
  | x :: rest => do s' <- body s x; foldM body rest s'
  end.

(** Dereference of the pointer [k] into a store of records. *)
Definition deref {A} (store : list A) (k : nat) : Result A :=
  match store !! k with
  | Some a => Ok a
  | None => Panic NilDereference
  end.

(** ** Machine integers *)

(** Two's complement wrap-around of a 64-bit signed result. *)
Definition wrap64 (z : Z) : Z := (z + 2 ^ 63) mod 2 ^ 64 - 2 ^ 63.

Definition int64_range (z : Z) : Prop := - 2 ^ 63 <= z < 2 ^ 63.

(** Conversion to [pp.Integer], an unsigned 32-bit integer. *)
Definition to_uint32 (z : Z) : Z := z mod 2 ^ 32.

(** ** github.com/anacrolix/multiless

    The comparison chains of [order.go] are built with this library: a
    computation is undecided until the first pair of operands that
    differ, and [MustLess] panics on a computation that never decided. *)

Module multiless.

Record Computation : Type := { ok : bool; less : bool }.

Definition New : Computation := {| ok := false; less := false |}.

Definition EagerSameLess (me : Computation) (same less : bool) : Computation :=
  if ok me || same then me else {| ok := true; less := less |}.

Definition Bool (me : Computation) (l r : bool) : Computation :=
  EagerSameLess me (Bool.eqb l r) r.

Definition Int (me : Computation) (l r : Z) : Computation :=
  EagerSameLess me (l =? r) (l <? r).

Definition Int64 := Int.
Definition Uintptr := Int.

Definition Float64 (me : Computation) (l r : float) : Computation :=
  EagerSameLess me (PrimFloat.eqb l r) (PrimFloat.ltb l r).

Definition MustLess (me : Computation) : Result bool :=
  if ok me then Ok (less me) else Panic NotDifferentiated.

End multiless.

(** ** sort.Slice

    Go sorts a slice of fewer than 12 elements by the insertion sort
    below: element [i] moves left while it is less than its left
    neighbour.  [revp] is the sorted prefix, last element first.  Longer
    slices go through the library's quicksort, which returns the same
    order whenever [less] is a strict total order on the elements; both
    comparison chains of the scheduler end in [MustLess], so a tie is a
    panic and not an arbitrary order. *)

Fixpoint insertionStep {A} (less : A -> A -> Result bool) (x : A) (revp : list A)
  : Result (list A) :=
  match revp with
  | [] => Ok [x]
  | y :: rest =>
      do b <- less x y;
      if b : bool then do r <- insertionStep less x rest; Ok (y :: r)
      else Ok (x :: y :: rest)
  end.

Definition sortSlice {A} (less : A -> A -> Result bool) (l : list A) : Result (list A) :=
  do r <- foldM (fun revp x => insertionStep less x revp) l [];
  Ok (reverse r).

(** ** request-strategy/order.go *)

Module request_strategy.

(** *** Types declared outside [order.go]

    [types.ChunkSpec], [types.Request], [Peer], [Piece], [Torrent] and
    [PeerNextRequestState] are declared in files of the package that
    are not part of the sources at hand; their fields are the ones
    [order.go] and [order_test.go] read and write. *)

Definition pieceIndex := Z.
Definition piecePriority := Z.
Definition PeerId := Z.              (* compared and keyed by Id.Uintptr() *)

Record ChunkSpec : Type := { Begin : Z; ChunkLength : Z }.
Record Request : Type := { Index : Z; Spec : ChunkSpec }.

#[global] Instance ChunkSpec_eq_dec : EqDecision ChunkSpec.
Proof. solve_decision. Defined.
#[global] Instance ChunkSpec_countable : Countable ChunkSpec.
Proof.
  apply (inj_countable' (fun c => (Begin c, ChunkLength c))
                        (fun p => {| Begin := p.1; ChunkLength := p.2 |})).
  by intros [].
Defined.
#[global] Instance Request_eq_dec : EqDecision Request.
Proof. solve_decision. Defined.
#[global] Instance Request_countable : Countable Request.
Proof.
  apply (inj_countable' (fun r => (Index r, Spec r))
                        (fun p => {| Index := p.1; Spec := p.2 |})).
  by intros [].
Defined.

(** Modelled from the spec: the declaration of [Peer] and the bodies
    of its methods [canRequestPiece] and [pieceAllowedFastOrDefault]
    are missing.  Section 4.4 lists both among the operations of the
    peer snapshot, next to [hasPiece] and [hasExistingRequest]; they
    are carried as fields, so every result below holds whatever the
    two methods compute.  [HasExistingRequest] may be nil. *)
Record Peer : Type := {
  HasPiece : pieceIndex -> bool;
  MaxRequests : Z;
  HasExistingRequest : option (Request -> bool);
  Choking : bool;
  DownloadRate : float;
  Age : Z;
  Id : PeerId;
  canRequestPiece : pieceIndex -> bool;
  pieceAllowedFastOrDefault : pieceIndex -> bool
}.

(** [IterPendingChunks] is a callback iterator; it is modelled by the
    sequence of chunk specs it yields ([[]] for a nil iterator, which
    [iterPendingChunksWrapper] tolerates). *)
Record Piece : Type := {
  PieceRequest : bool;                (* the field Request *)
  Priority : piecePriority;
  Partial : bool;
  Availability : Z;
  Length : Z;
  NumPendingChunks : Z;
  IterPendingChunks : list ChunkSpec
}.

(** [Capacity] is a pointer to a function that returns a pointer to a
    byte counter; the pointer to the function is the key. *)
Record Torrent : Type := {
  Pieces : list Piece;
  Capacity : option Z;
  Peers : list Peer;
  StableId : Z;
  MaxUnverifiedBytes : Z
}.

Record PeerNextRequestState : Type := {
  Interested : bool;
  Requests : gset Request
}.

(** *** Types of [order.go] *)

Record requestsPeer : Type := {
  rp_Peer : Peer;
  nextState : PeerNextRequestState;
  requestablePiecesRemaining : Z
}.

(** [t.storageLeft] is a pointer into the heap of byte counters. *)
Record orderTorrent : Type := {
  ot_Torrent : Torrent;
  unverifiedBytes : Z;
  storageLeft : option Z;
  peers : list requestsPeer
}.

(** [t] points to an [orderTorrent]: its position in [orderTorrents]. *)
Record pieceRequestOrderPiece : Type := {
  t : nat;
  index : pieceIndex;
  pr_Piece : Piece
}.

(** The embedded [*requestsPeer] is [slot], the position of the record
    in the torrent's [peers], together with the record's contents:
    while [allocatePendingChunks] runs, the records are reached only
    through [peersForPiece], and [writeBack] stores them at exit. *)
Record peersForPieceRequests : Type := {
  requestsInPiece : Z;
  slot : nat;
  pfp_requestsPeer : requestsPeer
}.

(** *** Field updates *)

Definition withRequests (rp : requestsPeer) (rs : gset Request) : requestsPeer :=
  {| rp_Peer := rp_Peer rp;
     nextState := {| Interested := Interested (nextState rp); Requests := rs |};
     requestablePiecesRemaining := requestablePiecesRemaining rp |}.

Definition withInterested (rp : requestsPeer) (b : bool) : requestsPeer :=
  {| rp_Peer := rp_Peer rp;
     nextState := {| Interested := b; Requests := Requests (nextState rp) |};
     requestablePiecesRemaining := requestablePiecesRemaining rp |}.

Definition withRemaining (rp : requestsPeer) (n : Z) : requestsPeer :=
  {| rp_Peer := rp_Peer rp;
     nextState := nextState rp;
     requestablePiecesRemaining := n |}.

Definition onPeer (f : requestsPeer -> requestsPeer) (me : peersForPieceRequests)
  : peersForPieceRequests :=
  {| requestsInPiece := requestsInPiece me;
     slot := slot me;
     pfp_requestsPeer := f (pfp_requestsPeer me) |}.

Definition withRequestsInPiece (me : peersForPieceRequests) (n : Z)
  : peersForPieceRequests :=
  {| requestsInPiece := n;
     slot := slot me;
     pfp_requestsPeer := pfp_requestsPeer me |}.

(** *** The piece order *)

(** [ClientPieceOrder.less]; [ots] is the store [i.t] and [j.t] point into. *)
Definition less (ots : list orderTorrent) (i j : pieceRequestOrderPiece) : Result bool :=
  do it <- deref ots (t i);
  do jt <- deref ots (t j);
  multiless.MustLess
    (multiless.Uintptr
       (multiless.Int
          (multiless.Int64
             (multiless.Bool
                (multiless.Int multiless.New
                   (Priority (pr_Piece j)) (Priority (pr_Piece i)))
                (Partial (pr_Piece j)) (Partial (pr_Piece i)))
             (Availability (pr_Piece i)) (Availability (pr_Piece j)))
          (index i) (index j))
       (StableId (ot_Torrent it)) (StableId (ot_Torrent jt))).

(** [ClientPieceOrder.sort] *)
Definition sort (ots : list orderTorrent) (pieces : list pieceRequestOrderPiece)
  : Result (list pieceRequestOrderPiece) :=
  sortSlice (less ots) pieces.

(** *** Peers *)

Definition canFitRequest (rp : requestsPeer) : bool :=
  Z.of_nat (size (Requests (nextState rp))) <? MaxRequests (rp_Peer rp).

(** [requestsPeer.addNextRequest] *)
Definition rp_addNextRequest (rp : requestsPeer) (r : Request) : Result requestsPeer :=
  if decide (r ∈ Requests (nextState rp)) then Panic ShouldOnlyAddOnce
  else Ok (withRequests rp ({[ r ]} ∪ Requests (nextState rp))).

(** [peersForPieceRequests.addNextRequest] *)
Definition addNextRequest (me : peersForPieceRequests) (r : Request)
  : Result peersForPieceRequests :=
  do rp <- rp_addNextRequest (pfp_requestsPeer me) r;
  Ok {| requestsInPiece := requestsInPiece me + 1;
        slot := slot me;
        pfp_requestsPeer := rp |}.

Definition hasExistingRequest (me : peersForPieceRequests) (r : Request) : bool :=
  match HasExistingRequest (rp_Peer (pfp_requestsPeer me)) with
  | Some h => h r
  | None => false
  end.

Definition hasNextRequest (me : peersForPieceRequests) (r : Request) : bool :=
  bool_decide (r ∈ Requests (nextState (pfp_requestsPeer me))).

(** The comparison of [sortPeersForPiece]. *)
Definition lessPeers (byHasRequest : option Request) (i j : peersForPieceRequests)
  : Result bool :=
  let ml :=
    multiless.Float64
      (multiless.Int
         (multiless.Int multiless.New (requestsInPiece i) (requestsInPiece j))
         (requestablePiecesRemaining (pfp_requestsPeer i))
         (requestablePiecesRemaining (pfp_requestsPeer j)))
      (DownloadRate (rp_Peer (pfp_requestsPeer j)))
      (DownloadRate (rp_Peer (pfp_requestsPeer i))) in
  let ml :=
    match byHasRequest with
    | Some r => multiless.Bool ml (hasNextRequest j r) (hasNextRequest i r)
    | None => ml
    end in
  multiless.MustLess
    (multiless.Uintptr
       (multiless.Int64 ml
          (Age (rp_Peer (pfp_requestsPeer j))) (Age (rp_Peer (pfp_requestsPeer i))))
       (Id (rp_Peer (pfp_requestsPeer i))) (Id (rp_Peer (pfp_requestsPeer j)))).

Definition sortPeersForPiece (byHasRequest : option Request)
    (peersForPiece : list peersForPieceRequests) : Result (list peersForPieceRequests) :=
  sortSlice (lessPeers byHasRequest) peersForPiece.

(** The object [ptr] points to, updated in place. *)
Definition updatePeer (ptr : nat) (f : peersForPieceRequests -> peersForPieceRequests)
    (peersForPiece : list peersForPieceRequests) : list peersForPieceRequests :=
  map (fun me => if Nat.eqb (slot me) ptr then f me else me) peersForPiece.

(** First pass, one chunk: every peer that reports the request as
    existing, can fit it and can request the piece gets it;
    [preallocated[spec]] keeps the last of them. *)
Fixpoint honourExisting (index : pieceIndex) (req : Request)
    (peersForPiece : list peersForPieceRequests) (prePeer : option nat)
  : Result (list peersForPieceRequests * option nat) :=
  match peersForPiece with
  | [] => Ok ([], prePeer)
  | peer :: rest =>
      if negb (hasExistingRequest peer req)
         || negb (canFitRequest (pfp_requestsPeer peer))
         || negb (canRequestPiece (rp_Peer (pfp_requestsPeer peer)) index)
      then
        do '(rest', pre') <- honourExisting index req rest prePeer;
        Ok (peer :: rest', pre')
      else
        do peer' <- addNextRequest peer req;
        do '(rest', pre') <- honourExisting index req rest (Some (slot peer));
        Ok (peer' :: rest', pre')
  end.

(** The peer loop of the second and third pass: the first peer that
    can fit the request, has the piece and is not excluded by choking
    gets it; the flag tells whether one was found. *)
Fixpoint assignRequest (index : pieceIndex) (req : Request)
    (peersForPiece : list peersForPieceRequests)
  : Result (list peersForPieceRequests * bool) :=
  match peersForPiece with
  | [] => Ok ([], false)
  | peer :: rest =>
      if negb (canFitRequest (pfp_requestsPeer peer))
         || negb (HasPiece (rp_Peer (pfp_requestsPeer peer)) index)
      then
        do '(rest', found) <- assignRequest index req rest;
        Ok (peer :: rest', found)
      else if pieceAllowedFastOrDefault (rp_Peer (pfp_requestsPeer peer)) index
      then
        do peer' <- addNextRequest peer req;
        Ok (peer' :: rest, true)
      else
        let peer := onPeer (fun rp => withInterested rp true) peer in
        if Choking (rp_Peer (pfp_requestsPeer peer))
        then
          do '(rest', found) <- assignRequest index req rest;
          Ok (peer :: rest', found)
        else
          do peer' <- addNextRequest peer req;
          Ok (peer' :: rest, true)
  end.

(** The records go back to the slots they were taken from. *)
Definition writeBack (peersForPiece : list peersForPieceRequests)
    (peers : list requestsPeer) : list requestsPeer :=
  fold_left (fun acc me => <[slot me := pfp_requestsPeer me]> acc) peersForPiece peers.

Definition requestOf (p : pieceRequestOrderPiece) (spec : ChunkSpec) : Request :=
  {| Index := to_uint32 (index p); Spec := spec |}.

(** [peersForPiece] as [allocatePendingChunks] builds it. *)
Definition newPeersForPiece (peers : list requestsPeer) : list peersForPieceRequests :=
  imap (fun k peer => {| requestsInPiece := 0; slot := k; pfp_requestsPeer := peer |})
       peers.

(** The body of the first iteration over the pending chunks. *)
Definition honourChunk (p : pieceRequestOrderPiece)
    (acc : list peersForPieceRequests * gmap ChunkSpec nat) (spec : ChunkSpec)
  : Result (list peersForPieceRequests * gmap ChunkSpec nat) :=
  let '(peersForPiece, preallocated) := acc in
  do '(peersForPiece, prePeer) <-
    honourExisting (index p) (requestOf p spec) peersForPiece None;
  Ok (peersForPiece,
      match prePeer with
      | Some peer => <[spec := peer]> preallocated
      | None => preallocated
      end).

(** The body of the second iteration over the pending chunks;
    [pendingChunksRemaining] goes down whether or not a peer took
    the chunk. *)
Definition fillChunk (p : pieceRequestOrderPiece) (preallocated : gmap ChunkSpec nat)
    (acc : list peersForPieceRequests * Z) (chunk : ChunkSpec)
  : Result (list peersForPieceRequests * Z) :=
  let '(peersForPiece, pendingChunksRemaining) := acc in
  if decide (is_Some (preallocated !! chunk))
  then Ok (peersForPiece, pendingChunksRemaining)
  else
    do peersForPiece <- sortPeersForPiece None peersForPiece;
    do '(peersForPiece, _) <- assignRequest (index p) (requestOf p chunk) peersForPiece;
    Ok (peersForPiece, pendingChunksRemaining - 1).

(** The body of the loop over [preallocated]: the holder gives the
    chunk up after the sort, and the first peer in the new order that
    can take it gets it. *)
Definition stealChunk (p : pieceRequestOrderPiece)
    (acc : list peersForPieceRequests * Z) (entry : ChunkSpec * nat)
  : Result (list peersForPieceRequests * Z) :=
  let '(peersForPiece, pendingChunksRemaining) := acc in
  let '(chunk, prePeer) := entry in
  let req := requestOf p chunk in
  let peersForPiece :=
    updatePeer prePeer (fun me => withRequestsInPiece me (requestsInPiece me - 1))
               peersForPiece in
  do peersForPiece <- sortPeersForPiece (Some req) peersForPiece;
  let peersForPiece :=
    updatePeer prePeer
               (onPeer (fun rp => withRequests rp (Requests (nextState rp) ∖ {[ req ]})))
               peersForPiece in
  do '(peersForPiece, found) <- assignRequest (index p) req peersForPiece;
  Ok (peersForPiece,
      if found : bool then pendingChunksRemaining - 1 else pendingChunksRemaining).

(** The deferred function of [allocatePendingChunks]. *)
Definition releasePiece (p : pieceRequestOrderPiece)
    (peersForPiece : list peersForPieceRequests) : list peersForPieceRequests :=
  map (fun peer =>
         if canRequestPiece (rp_Peer (pfp_requestsPeer peer)) (index p)
         then onPeer (fun rp => withRemaining rp (requestablePiecesRemaining rp - 1)) peer
         else peer)
      peersForPiece.

(** [allocatePendingChunks] from the loop over [preallocated] on;
    [order] is the order in which the loop meets the entries. *)
Definition stealAndFinish (p : pieceRequestOrderPiece) (peers : list requestsPeer)
    (order : list (ChunkSpec * nat)) (acc : list peersForPieceRequests * Z)
  : Result (list requestsPeer) :=
  do '(peersForPiece, pendingChunksRemaining) <- foldM (stealChunk p) order acc;
  if negb (pendingChunksRemaining =? 0)
  then Panic (PendingChunksRemaining pendingChunksRemaining)
  else Ok (writeBack (releasePiece p peersForPiece) peers).

Section scheduler.

(** The order in which [range] walks the map [preallocated] is not
  specified by Go; [mapOrder] is that order, given the entries. *)
Variable mapOrder : list (ChunkSpec * nat) -> list (ChunkSpec * nat).

Definition allocatePendingChunks (p : pieceRequestOrderPiece)
  (peers : list requestsPeer) : Result (list requestsPeer) :=
do '(peersForPiece, preallocated) <-
  foldM (honourChunk p) (IterPendingChunks (pr_Piece p))
        (newPeersForPiece peers, ∅);
do acc <-
  foldM (fillChunk p preallocated) (IterPendingChunks (pr_Piece p))
        (peersForPiece, NumPendingChunks (pr_Piece p));
stealAndFinish p peers (mapOrder (map_to_list preallocated)) acc.

(** The state the walk of [DoRequests] works on: the byte counters
  the [storageLeft] pointers refer to, and the order torrents the
  pieces point to. *)
Record runState : Type := {
heap : Z -> Z;
orderTorrents : list orderTorrent
}.

(** The call of the capacity function [key] points to: the pointer
  it returns, [None] for nil. *)
Variable callCapacity : Z -> option Z.

(** The loop over [t.Pieces] in the first loop of [DoRequests]:
  every piece is appended to the order, and a piece to request
  with pending chunks counts for each peer that can request it. *)
Definition addPiece (ot : nat)
  (acc : list pieceRequestOrderPiece * list requestsPeer) (entry : nat * Piece)
: list pieceRequestOrderPiece * list requestsPeer :=
let '(order, peers) := acc in
let '(i, tp) := entry in
(order ++ [ {| t := ot; index := Z.of_nat i; pr_Piece := tp |} ],
 if PieceRequest tp && negb (NumPendingChunks tp =? 0)
 then map (fun p =>
             if canRequestPiece (rp_Peer p) (Z.of_nat i)
             then withRemaining p (requestablePiecesRemaining p + 1)
             else p) peers
 else peers).

Definition addPieces (ot : nat) (pieces : list Piece) (peers : list requestsPeer)
: list pieceRequestOrderPiece * list requestsPeer :=
foldl (addPiece ot) ([], peers) (imap (fun i tp => (i, tp)) pieces).

(** The first loop of [DoRequests], one torrent. *)
Definition addTorrent
  (acc : gmap Z (option Z) * list pieceRequestOrderPiece * list orderTorrent)
  (_t : Torrent)
: gmap Z (option Z) * list pieceRequestOrderPiece * list orderTorrent :=
let '(storageLeftMap, pieces, ots) := acc in
let '(storageLeftMap, counter) :=
  match Capacity _t with
  | Some key =>
      let storageLeftMap :=
        match storageLeftMap !! key with
        | Some _ => storageLeftMap
        | None => <[key := callCapacity key]> storageLeftMap
        end in
      (storageLeftMap, default None (storageLeftMap !! key))
  | None => (storageLeftMap, None)
  end in
let peers :=
  map (fun p => {| rp_Peer := p;
                   nextState := {| Interested := false; Requests := ∅ |};
                   requestablePiecesRemaining := 0 |}) (Peers _t) in
let '(order, peers) := addPieces (length ots) (Pieces _t) peers in
(storageLeftMap, pieces ++ order,
 ots ++ [ {| ot_Torrent := _t; unverifiedBytes := 0;
                      storageLeft := counter; peers := peers |} ]).

(** The storage check at the head of the loop body: [None] when the
  counter is short of the piece length, else the counters after
  the piece length was taken; a torrent without a counter passes. *)
Definition claimStorage (heap : Z -> Z) (storageLeft : option Z) (length : Z)
: option (Z -> Z) :=
match storageLeft with
| Some counter =>
    if heap counter <? length then None
    else Some (fun ptr => if ptr =? counter
                          then wrap64 (heap counter - length)
                          else heap ptr)
| None => Some heap
end.

(** The order torrent after [allocatePendingChunks] returned
  [peers'] for a piece of [length] bytes. *)
Definition charge (ot : orderTorrent) (length : Z) (peers' : list requestsPeer)
: orderTorrent :=
{| ot_Torrent := ot_Torrent ot;
   unverifiedBytes := wrap64 (unverifiedBytes ot + length);
   storageLeft := storageLeft ot;
   peers := peers' |}.

(** The body of the walk over the sorted pieces; [Ok st] without a
  change is the [continue] of the loop. *)
Definition walkPiece (st : runState) (piece : pieceRequestOrderPiece)
: Result runState :=
do ot <- deref (orderTorrents st) (t piece);
match claimStorage (heap st) (storageLeft ot) (Length (pr_Piece piece)) with
| None => Ok st
| Some heap' =>
    let st := {| heap := heap'; orderTorrents := orderTorrents st |} in
    if negb (PieceRequest (pr_Piece piece))
       || (NumPendingChunks (pr_Piece piece) =? 0)
    then Ok st
    else if negb (MaxUnverifiedBytes (ot_Torrent ot) =? 0)
            && (MaxUnverifiedBytes (ot_Torrent ot)
                <? wrap64 (unverifiedBytes ot + Length (pr_Piece piece)))
    then Ok st
    else
      do peers' <- allocatePendingChunks piece (peers ot);
      Ok {| heap := heap';
            orderTorrents :=
              <[t piece := charge ot (Length (pr_Piece piece)) peers']>
                (orderTorrents st) |}
end.

Definition walk (pieces : list pieceRequestOrderPiece) (st : runState)
: Result runState :=
foldM walkPiece pieces st.

(** The last loop of [DoRequests]: a peer that still counts a
  requestable piece is a panic; a later peer with the same id
  overwrites an earlier one. *)
Definition emitPeer (ret : gmap PeerId PeerNextRequestState) (rp : requestsPeer)
: Result (gmap PeerId PeerNextRequestState) :=
if negb (requestablePiecesRemaining rp =? 0)
then Panic (RequestablePiecesRemaining (requestablePiecesRemaining rp))
else Ok (<[Id (rp_Peer rp) := nextState rp]> ret).

Definition emit (ots : list orderTorrent)
: Result (gmap PeerId PeerNextRequestState) :=
foldM (fun ret ot => foldM emitPeer (peers ot) ret) ots ∅.

(** [DoRequests]; [counters] is the content of the byte counters
  when the scheduler starts. *)
Definition DoRequests (counters : Z -> Z) (torrents : list Torrent)
: Result (gmap PeerId PeerNextRequestState) :=
let '(_, pieces, ots) :=
  foldl addTorrent ((∅ : gmap Z (option Z)), [], []) torrents in
do pieces <- sort ots pieces;
do st <- walk pieces {| heap := counters; orderTorrents := ots |};
emit (orderTorrents st).

End scheduler.

End request_strategy.

(** ** The sort cascade as the specification words it *)

Module cascade.
Import request_strategy.

(** The key [(-priority, -partial, +availability, +pieceIndex,
    +torrentStableId)] of a piece of the torrent [ot]. *)
Definition key (ot : orderTorrent) (p : pieceRequestOrderPiece) : list Z :=
  [ - Priority (pr_Piece p); - Z.b2z (Partial (pr_Piece p));
    Availability (pr_Piece p); index p; StableId (ot_Torrent ot) ].

(** First tiebreak first: the first component that differs decides. *)
Fixpoint before (a b : list Z) : Prop :=
  match a, b with
  | x :: a', y :: b' => x < y \/ (x = y /\ before a' b')
  | _, _ => False
  end.

(** [i] is ordered before [j]; the pointers [i.t] and [j.t] are
    looked up in [ots]. *)
Definition piece_before (ots : list orderTorrent) (i j : pieceRequestOrderPiece) : Prop :=
  exists it jt, ots !! t i = Some it /\ ots !! t j = Some jt /\
                before (key it i) (key jt j).

End cascade.

(** ** Concrete inputs

    The inputs the properties below are evaluated on. *)

Module scenario.
Import request_strategy.

(** Two torrents with stable ids 7 and 3, and five of their pieces. *)
Definition order_ots : list orderTorrent :=
  map (fun id => {| ot_Torrent := {| Pieces := []; Capacity := None; Peers := [];
                                     StableId := id; MaxUnverifiedBytes := 0 |};
                    unverifiedBytes := 0; storageLeft := None; peers := [] |})
      [7; 3].

Definition order_piece (ot : nat) (ix prio : Z) (partial : bool) (avail : Z)
  : pieceRequestOrderPiece :=
  {| t := ot; index := ix;
     pr_Piece := {| PieceRequest := true; Priority := prio; Partial := partial;
                    Availability := avail; Length := 16384; NumPendingChunks := 1;
                    IterPendingChunks := [] |} |}.

Definition order_pieces : list pieceRequestOrderPiece :=
  [ order_piece 0 0 1 false 2; order_piece 0 1 1 true 5; order_piece 1 0 1 false 2;
    order_piece 1 1 2 false 9; order_piece 0 2 1 true 4 ].

(** *** TestStealingFromSlowerPeer *)

Definition basePeer : Peer :=
  {| HasPiece := fun _ => true; MaxRequests := 32767; HasExistingRequest := None;
     Choking := false; DownloadRate := 2%float; Age := 0; Id := 0;
     canRequestPiece := fun _ => true; pieceAllowedFastOrDefault := fun _ => false |}.
Definition withId (p : Peer) (id : PeerId) : Peer :=
  {| HasPiece := HasPiece p; MaxRequests := MaxRequests p;
     HasExistingRequest := HasExistingRequest p; Choking := Choking p;
     DownloadRate := DownloadRate p; Age := Age p; Id := id;
     canRequestPiece := canRequestPiece p;
     pieceAllowedFastOrDefault := pieceAllowedFastOrDefault p |}.
Definition stealee : Peer :=
  {| HasPiece := fun _ => true; MaxRequests := 32767;
     HasExistingRequest := Some (fun _ => true);
     Choking := false; DownloadRate := 1%float; Age := 0; Id := 1;
     canRequestPiece := fun _ => true; pieceAllowedFastOrDefault := fun _ => false |}.
Definition firstStealer := withId basePeer 2.
Definition secondStealer := withId basePeer 3.
Definition chunkIterRange (n : nat) : list ChunkSpec :=
  map (fun offset => {| Begin := Z.of_nat offset; ChunkLength := 1 |}) (seq 0 n).
Definition stealing_pending : Piece :=
  {| PieceRequest := true; Priority := 0; Partial := false; Availability := 0;
     Length := 0; NumPendingChunks := 5; IterPendingChunks := chunkIterRange 5 |}.
Definition stealing : Torrent :=
  {| Pieces := [ stealing_pending ];
     Capacity := None; Peers := [stealee; firstStealer; secondStealer];
     StableId := 0; MaxUnverifiedBytes := 0 |}.

(** The state of the run when the loop over [preallocated] starts: the
    stealee holds all five chunks, every entry of [preallocated] points
    to it, and no chunk was left for the second pass. *)
Definition stealing_piece : pieceRequestOrderPiece :=
  {| t := 0; index := 0; pr_Piece := stealing_pending |}.
Definition stealing_peers : list requestsPeer :=
  map (fun p => {| rp_Peer := p;
                   nextState := {| Interested := false; Requests := ∅ |};
                   requestablePiecesRemaining := 1 |})
      [stealee; firstStealer; secondStealer].
Definition stealing_entries : list (ChunkSpec * nat) :=
  map (fun spec => (spec, 0%nat)) (chunkIterRange 5).
Definition stealing_preallocated : gmap ChunkSpec nat := list_to_map stealing_entries.
Definition stealing_peersForPiece : list peersForPieceRequests :=
  [ {| requestsInPiece := 5; slot := 0;
       pfp_requestsPeer :=
         {| rp_Peer := stealee;
            nextState := {| Interested := false;
                            Requests := list_to_set (map (requestOf stealing_piece)
                                                         (chunkIterRange 5)) |};
            requestablePiecesRemaining := 1 |} |};
    {| requestsInPiece := 0; slot := 1;
       pfp_requestsPeer :=
         {| rp_Peer := firstStealer;
            nextState := {| Interested := false; Requests := ∅ |};
            requestablePiecesRemaining := 1 |} |};
    {| requestsInPiece := 0; slot := 2;
       pfp_requestsPeer :=
         {| rp_Peer := secondStealer;
            nextState := {| Interested := false; Requests := ∅ |};
            requestablePiecesRemaining := 1 |} |} ].

(** The rest of the run, for the order [order] of the loop. *)
Definition stealing_finish (order : list (ChunkSpec * nat))
  : Result (gmap PeerId PeerNextRequestState) :=
  do peers' <- stealAndFinish stealing_piece stealing_peers order
                              (stealing_peersForPiece, 5);
  emit [ {| ot_Torrent := stealing; unverifiedBytes := 0; storageLeft := None;
            peers := peers' |} ].

(** What the test reads in a next state. *)
Definition summary (st : PeerNextRequestState) : bool * nat :=
  (Interested st, size (Requests st)).

Definition stealing_expected : gmap PeerId (bool * nat) :=
  {[ 1 := (true, 1%nat); 2 := (true, 2%nat); 3 := (true, 2%nat) ]}.

Definition has_summary (expected : gmap PeerId (bool * nat))
    (res : Result (gmap PeerId PeerNextRequestState)) : bool :=
  match res with
  | Ok results => bool_decide (summary <$> results = expected)
  | Panic _ => false
  end.

(** *** More chunks than 32 *)

(** One torrent, one piece to request with 33 pending chunks, and the
    first stealer of the tests as its only peer. *)
Definition thirty_three : Torrent :=
  {| Pieces := [ {| PieceRequest := true; Priority := 0; Partial := false;
                    Availability := 0; Length := 0; NumPendingChunks := 33;
                    IterPendingChunks := chunkIterRange 33 |} ];
     Capacity := None; Peers := [firstStealer];
     StableId := 0; MaxUnverifiedBytes := 0 |}.

(** *** Two torrents and one storage counter

    Both torrents name the capacity function 7, which returns the
    counter at address 100; the counter holds one piece length.  Each
    torrent has one piece of that length with one pending chunk, and
    one peer. *)
Definition pieceLength : Z := 16384.
Definition sharedCapacity (key : Z) : option Z :=
  if key =? 7 then Some 100 else None.
Definition sharedCounters (ptr : Z) : Z :=
  if ptr =? 100 then pieceLength else 0.
Definition sharing (stableId : Z) (peer : Peer) : Torrent :=
  {| Pieces := [ {| PieceRequest := true; Priority := 0; Partial := false;
                    Availability := 0; Length := pieceLength; NumPendingChunks := 1;
                    IterPendingChunks := chunkIterRange 1 |} ];
     Capacity := Some 7; Peers := [peer];
     StableId := stableId; MaxUnverifiedBytes := 0 |}.
Definition sharing_torrents : list Torrent :=
  [ sharing 2 firstStealer; sharing 1 secondStealer ].
Definition sharing_setup
  : gmap Z (option Z) * list pieceRequestOrderPiece * list orderTorrent :=
  foldl (addTorrent sharedCapacity) (∅, [], []) sharing_torrents.
Definition sharing_state : runState :=
  {| heap := sharedCounters; orderTorrents := sharing_setup.2 |}.
Definition sharing_piece (ot : nat) : pieceRequestOrderPiece :=
  {| t := ot; index := 0;
     pr_Piece := {| PieceRequest := true; Priority := 0; Partial := false;
                    Availability := 0; Length := pieceLength; NumPendingChunks := 1;
                    IterPendingChunks := chunkIterRange 1 |} |}.

(** The requests of every peer of every order torrent. *)
Definition requestsOf (st : runState) : list (list (PeerId * list Request)) :=
  map (fun ot => map (fun rp => (Id (rp_Peer rp), elements (Requests (nextState rp))))
                     (peers ot))
      (orderTorrents st).

(** *** A ceiling of two piece lengths

    One torrent with three pieces to request, each of one chunk, a
    peer that has them all, and [MaxUnverifiedBytes] of two piece
    lengths. *)
Definition ceiling : Torrent :=
  {| Pieces := replicate 3 {| PieceRequest := true; Priority := 0; Partial := false;
                              Availability := 0; Length := pieceLength;
                              NumPendingChunks := 1;
                              IterPendingChunks := chunkIterRange 1 |};
     Capacity := None; Peers := [firstStealer];
     StableId := 0; MaxUnverifiedBytes := 2 * pieceLength |}.
Definition ceiling_setup
  : gmap Z (option Z) * list pieceRequestOrderPiece * list orderTorrent :=
  foldl (addTorrent (fun _ => None)) (∅, [], []) [ceiling].
Definition ceiling_state : runState :=
  {| heap := fun _ => 0; orderTorrents := ceiling_setup.2 |}.
Definition ceiling_piece (i : Z) : pieceRequestOrderPiece :=
  {| t := 0; index := i;
     pr_Piece := {| PieceRequest := true; Priority := 0; Partial := false;
                    Availability := 0; Length := pieceLength; NumPendingChunks := 1;
                    IterPendingChunks := chunkIterRange 1 |} |}.

End scenario.

(** * Properties *)

(** ** The result monad and the sort *)

Lemma bind_Ok {A B} (m : Result A) (k : A -> Result B) (b : B) :
  bind m k = Ok b <-> exists a, m = Ok a /\ k a = Ok b.
Proof.
  destruct m as [a|why]; simpl; split.
  - intros H. by exists a.
  - by intros (a' & [= <-] & H).
  - discriminate.
  - by intros (a' & [=] & _).
Qed.

Lemma foldM_invariant {A S} (I : S -> Prop) (body : S -> A -> Result S) :
  (forall s x s', I s -> body s x = Ok s' -> I s') ->
  forall l s s', I s -> foldM body l s = Ok s' -> I s'.
Proof.
  intros Hbody l. induction l as [|x rest IH]; intros s s' Hs; simpl.
  - by intros [= <-].
  - intros (s1 & H1 & H2)%bind_Ok. eauto.
Qed.

Section sorting.
Context {A : Type} (less : A -> A -> Result bool) (R : A -> A -> Prop).
Hypothesis R_trans : forall x y z, R x y -> R y z -> R x z.

Definition decides (l : list A) : Prop :=
  forall x y, x ∈ l -> y ∈ l ->
    (less x y = Ok true -> R x y) /\ (less x y = Ok false -> R y x).

Lemma insertionStep_sorted (l : list A) x revp r :
  decides l -> x ∈ l -> (forall y, y ∈ revp -> y ∈ l) ->
  StronglySorted (flip R) revp ->
  insertionStep less x revp = Ok r ->
  StronglySorted (flip R) r /\ r ≡ₚ x :: revp.
Proof.
  intros Hdec Hx. revert r.
  induction revp as [|y rest IH]; intros r Hin Hs; simpl.
  - intros [= <-]. split; [repeat constructor | done].
  - intros (b & Hb & Hr)%bind_Ok.
    assert (Hy : y ∈ l) by (apply Hin; left).
    destruct (Hdec x y Hx Hy) as [Ht Hf].
    apply StronglySorted_inv in Hs as [Hs Hall].
    destruct b.
    + apply bind_Ok in Hr as (r' & Hr' & [= <-]).
      destruct (IH r') as [IHs IHp]; [intros; apply Hin; by right|done|done|].
      split.
      * constructor; [done|].
        rewrite IHp. constructor; [by apply Ht|done].
      * rewrite IHp. apply perm_swap.
    + injection Hr as <-. split; [|done].
      constructor; [by constructor|].
      constructor; [by apply Hf|].
      eapply Forall_impl; [exact Hall|].
      intros z Hz. unfold flip in *. eapply R_trans; [exact Hz|]. by apply Hf.
Qed.

Lemma StronglySorted_reverse (l : list A) :
  StronglySorted (flip R) l -> StronglySorted R (reverse l).
Proof.
  induction 1 as [|x r' Hs IH Hall]; [constructor|rewrite reverse_cons].
  apply StronglySorted_app. split_and!; [|done|repeat constructor].
  intros y z Hy Hz. apply list_elem_of_singleton in Hz as ->.
  rewrite elem_of_reverse in Hy.
  rewrite Forall_forall in Hall. exact (Hall y Hy).
Qed.

Lemma sortSlice_sorted (l r : list A) :
  decides l -> sortSlice less l = Ok r -> StronglySorted R r /\ r ≡ₚ l.
Proof.
  intros Hdec (revp & Hfold & [= <-])%bind_Ok.
  assert (Hgen : forall todo done acc,
             (forall y, y ∈ todo -> y ∈ l) -> (forall y, y ∈ done -> y ∈ l) ->
             StronglySorted (flip R) done ->
             foldM (fun revp x => insertionStep less x revp) todo done = Ok acc ->
             StronglySorted (flip R) acc /\ acc ≡ₚ todo ++ done).
  { induction todo as [|x todo IH]; intros done acc Htodo Hdone Hs; simpl.
    - by intros [= <-].
    - intros (d1 & H1 & H2)%bind_Ok.
      destruct (insertionStep_sorted l x done d1) as [Hs1 Hp1]; try done.
      { apply Htodo. left. }
      destruct (IH d1 acc) as [Hs2 Hp2]; try done.
      { intros; apply Htodo; by right. }
      { intros y Hy. rewrite Hp1 in Hy. apply elem_of_cons in Hy as [->|Hy].
        - apply Htodo. left.
        - by apply Hdone. }
      split; [done|]. rewrite Hp2, Hp1. by rewrite Permutation_middle. }
  destruct (Hgen l [] revp) as [Hs Hp]; try done.
  { intros y Hy. by apply elem_of_nil in Hy. }
  { constructor. }
  rewrite app_nil_r in Hp. split.
  - by apply StronglySorted_reverse.
  - by rewrite reverse_Permutation.
Qed.
End sorting.

(** ** The piece order *)

Section piece_order.
Import request_strategy.

Lemma before_trans a b c : cascade.before a b -> cascade.before b c -> cascade.before a c.
Proof.
revert b c. induction a as [|x a IH]; intros [|y b] [|z c]; simpl; try tauto.
intros [?|[-> ?]] [?|[-> ?]]; try (left; lia). right. eauto.
Qed.

Lemma piece_before_trans ots i j k :
cascade.piece_before ots i j -> cascade.piece_before ots j k -> cascade.piece_before ots i k.
Proof.
intros (it & jt & Hi & Hj & Hij) (jt' & kt & Hj' & Hk & Hjk).
rewrite Hj in Hj'. injection Hj' as <-.
exists it, kt. split_and!; try done. by eapply before_trans.
Qed.

Ltac settle_chain :=
simpl; split_and!; split; try discriminate; try (intros [=]; lia);
intuition (try lia; congruence).

(** The comparison chain of [less], once both torrents are at hand. *)
Lemma less_chain ots i j it jt :
ots !! t i = Some it -> ots !! t j = Some jt ->
(less ots i j = Ok true <-> cascade.before (cascade.key it i) (cascade.key jt j)) /\
(less ots i j = Ok false <-> cascade.before (cascade.key jt j) (cascade.key it i)) /\
(less ots i j = Panic NotDifferentiated <-> cascade.key it i = cascade.key jt j).
Proof.
intros Hi Hj. unfold less, deref. rewrite Hi, Hj. simpl.
unfold cascade.key, multiless.MustLess, multiless.Uintptr, multiless.Int64,
  multiless.Int, multiless.Bool, multiless.EagerSameLess, multiless.New.
simpl.
destruct (Z.eqb_spec (Priority (pr_Piece j)) (Priority (pr_Piece i)));
  [simpl|destruct (Z.ltb_spec (Priority (pr_Piece j)) (Priority (pr_Piece i)));
         settle_chain].
destruct (Partial (pr_Piece j)), (Partial (pr_Piece i)); simpl; try settle_chain.
all: destruct (Z.eqb_spec (Availability (pr_Piece i)) (Availability (pr_Piece j)));
  [simpl|destruct (Z.ltb_spec (Availability (pr_Piece i)) (Availability (pr_Piece j)));
         settle_chain].
all: destruct (Z.eqb_spec (index i) (index j));
  [simpl|destruct (Z.ltb_spec (index i) (index j)); settle_chain].
all: destruct (Z.eqb_spec (StableId (ot_Torrent it)) (StableId (ot_Torrent jt)));
  [|destruct (Z.ltb_spec (StableId (ot_Torrent it)) (StableId (ot_Torrent jt)))];
  settle_chain.
Qed.

Lemma less_Ok_true ots i j :
less ots i j = Ok true <-> cascade.piece_before ots i j.
Proof.
split.
- intros H. unfold less, deref in H.
  destruct (ots !! t i) as [it|] eqn:Hi; [|discriminate].
  destruct (ots !! t j) as [jt|] eqn:Hj; [|discriminate].
  exists it, jt. split_and!; try done.
  apply (less_chain ots i j it jt Hi Hj). unfold less, deref. by rewrite Hi, Hj.
- intros (it & jt & Hi & Hj & Hb). by apply (less_chain ots i j it jt Hi Hj).
Qed.

Lemma less_Ok_false ots i j :
less ots i j = Ok false <-> cascade.piece_before ots j i.
Proof.
split.
- intros H. unfold less, deref in H.
  destruct (ots !! t i) as [it|] eqn:Hi; [|discriminate].
  destruct (ots !! t j) as [jt|] eqn:Hj; [|discriminate].
  exists jt, it. split_and!; try done.
  apply (less_chain ots i j it jt Hi Hj). unfold less, deref. by rewrite Hi, Hj.
- intros (jt & it & Hj & Hi & Hb). by apply (less_chain ots i j it jt Hi Hj).
Qed.

(** C5: the comparison of the piece order is the cascade
  (-priority, -partial, +availability, +pieceIndex, +torrentStableId):
  [less] answers true exactly when the cascade puts [i] before [j],
  false exactly when it puts [j] before [i], and panics in [MustLess]
  exactly on equal keys; the list [sort] returns is a permutation of
  the pieces in which every piece is before all later ones. *)
Theorem less_is_cascade (ots : list orderTorrent) :
(forall i j,
    (less ots i j = Ok true <-> cascade.piece_before ots i j) /\
    (less ots i j = Ok false <-> cascade.piece_before ots j i) /\
    (forall it jt, ots !! t i = Some it -> ots !! t j = Some jt ->
       (less ots i j = Panic NotDifferentiated
        <-> cascade.key it i = cascade.key jt j))) /\
(forall pieces sorted,
    sort ots pieces = Ok sorted ->
    sorted ≡ₚ pieces /\ StronglySorted (cascade.piece_before ots) sorted).
Proof.
split.
- intros i j. split_and!.
  + apply less_Ok_true.
  + apply less_Ok_false.
  + intros it jt Hi Hj. apply (less_chain ots i j it jt Hi Hj).
- intros pieces sorted Hsort.
  destruct (sortSlice_sorted (less ots) (cascade.piece_before ots)
              (piece_before_trans ots) pieces sorted) as [Hs Hp]; [|done|done].
  intros x y _ _. split; [apply less_Ok_true|apply less_Ok_false].
Qed.

Lemma less_is_cascade_witness :
sort scenario.order_ots scenario.order_pieces
= Ok [ scenario.order_piece 1 1 2 false 9; scenario.order_piece 0 2 1 true 4; scenario.order_piece 0 1 1 true 5;
       scenario.order_piece 1 0 1 false 2; scenario.order_piece 0 0 1 false 2 ]
/\ StronglySorted (cascade.piece_before scenario.order_ots)
     [ scenario.order_piece 1 1 2 false 9; scenario.order_piece 0 2 1 true 4; scenario.order_piece 0 1 1 true 5;
       scenario.order_piece 1 0 1 false 2; scenario.order_piece 0 0 1 false 2 ].
Proof.
assert (H : sort scenario.order_ots scenario.order_pieces
            = Ok [ scenario.order_piece 1 1 2 false 9; scenario.order_piece 0 2 1 true 4;
                   scenario.order_piece 0 1 1 true 5; scenario.order_piece 1 0 1 false 2;
                   scenario.order_piece 0 0 1 false 2 ]) by reflexivity.
split; [exact H|].
exact (proj2 (proj2 (less_is_cascade scenario.order_ots) _ _ H)).
Defined.

End piece_order.

(** ** Stealing from a slower peer *)

Section stealing.
Import request_strategy.

Lemma allocatePendingChunks_passes mapOrder p peers peersForPiece preallocated acc :
foldM (honourChunk p) (IterPendingChunks (pr_Piece p)) (newPeersForPiece peers, ∅)
= Ok (peersForPiece, preallocated) ->
foldM (fillChunk p preallocated) (IterPendingChunks (pr_Piece p))
      (peersForPiece, NumPendingChunks (pr_Piece p)) = Ok acc ->
allocatePendingChunks mapOrder p peers
= stealAndFinish p peers (mapOrder (map_to_list preallocated)) acc.
Proof. intros H1 H2. unfold allocatePendingChunks. rewrite H1. simpl. by rewrite H2. Qed.



Lemma stealing_first_pass :
foldM (honourChunk scenario.stealing_piece) (IterPendingChunks (pr_Piece scenario.stealing_piece))
      (newPeersForPiece scenario.stealing_peers, ∅)
= Ok (scenario.stealing_peersForPiece, scenario.stealing_preallocated).
Proof. vm_compute. reflexivity. Qed.

Lemma stealing_second_pass :
foldM (fillChunk scenario.stealing_piece scenario.stealing_preallocated)
      (IterPendingChunks (pr_Piece scenario.stealing_piece))
      (scenario.stealing_peersForPiece, NumPendingChunks (pr_Piece scenario.stealing_piece))
= Ok (scenario.stealing_peersForPiece, 5).
Proof. vm_compute. reflexivity. Qed.

Lemma stealing_steps mapOrder callCapacity counters :
DoRequests mapOrder callCapacity counters [scenario.stealing]
= scenario.stealing_finish (mapOrder (map_to_list scenario.stealing_preallocated)).
Proof.
unfold DoRequests.
change (foldl (addTorrent callCapacity) (∅, [], []) [scenario.stealing])
  with (addTorrent callCapacity (∅, [], []) scenario.stealing).
cbn.
rewrite (allocatePendingChunks_passes _ scenario.stealing_piece scenario.stealing_peers _ _ _
           stealing_first_pass stealing_second_pass).
unfold scenario.stealing_finish.
by destruct (stealAndFinish _ _ _ _).
Qed.

Lemma stealing_every_order :
forallb (fun order => scenario.has_summary scenario.stealing_expected (scenario.stealing_finish order))
        (permutations scenario.stealing_entries) = true.
Proof. vm_compute. reflexivity. Qed.

(** C1: one torrent, one piece to request with the five pending chunks
  0..4; the scenario.stealee (rate 1, id 1) reports every request as existing,
  the two stealers (rate 2, ids 2 and 3) have the piece, nobody is
  limited by [MaxRequests].  Whatever the order in which Go walks the
  map [preallocated], [DoRequests] returns three next states: one
  request for the scenario.stealee, two for each stealer, all three interested. *)
Theorem stealing_from_slower_peer mapOrder callCapacity counters :
(forall l, mapOrder l ≡ₚ l) ->
exists results,
  DoRequests mapOrder callCapacity counters [scenario.stealing] = Ok results /\
  scenario.summary <$> results = scenario.stealing_expected.
Proof.
intros Hperm. rewrite stealing_steps.
assert (Hin : mapOrder (map_to_list scenario.stealing_preallocated) ∈ permutations scenario.stealing_entries).
{ apply permutations_Permutation. rewrite Hperm.
  symmetry. apply map_to_list_to_map.
  by apply (bool_decide_unpack _). }
pose proof stealing_every_order as Hall.
rewrite forallb_forall in Hall. apply list_elem_of_In, Hall in Hin.
unfold scenario.has_summary in Hin.
destruct (scenario.stealing_finish _) as [results|]; [|discriminate].
exists results. split; [done|]. by apply bool_decide_eq_true in Hin.
Qed.

Lemma stealing_from_slower_peer_witness :
(forall l : list (ChunkSpec * nat), id l ≡ₚ l) /\
exists results,
  DoRequests id (fun _ => None) (fun _ => 0) [scenario.stealing] = Ok results /\
  scenario.summary <$> results = scenario.stealing_expected.
Proof.
split; [done|].
apply stealing_from_slower_peer. intros l. reflexivity.
Defined.

End stealing.

(** ** The bound on the requests of a peer *)

Section request_bound.
Import request_strategy.

Lemma insertionStep_Permutation {A} (less : A -> A -> Result bool) x revp r :
insertionStep less x revp = Ok r -> r ≡ₚ x :: revp.
Proof.
revert r. induction revp as [|y rest IH]; intros r; simpl.
- by intros [= <-].
- intros (b & _ & Hr)%bind_Ok. destruct b.
  + apply bind_Ok in Hr as (r' & Hr' & [= <-]).
    rewrite (IH _ Hr'). apply perm_swap.
  + by injection Hr as <-.
Qed.

Lemma sortSlice_Permutation {A} (less : A -> A -> Result bool) l r :
sortSlice less l = Ok r -> r ≡ₚ l.
Proof.
intros (revp & Hfold & [= <-])%bind_Ok.
rewrite reverse_Permutation.
enough (Hgen : forall todo done acc,
           foldM (fun revp x => insertionStep less x revp) todo done = Ok acc ->
           acc ≡ₚ todo ++ done).
{ rewrite (Hgen _ _ _ Hfold). by rewrite app_nil_r. }
induction todo as [|x todo IH]; intros done acc; simpl.
- by intros [= <-].
- intros (d1 & H1 & H2)%bind_Ok.
  rewrite (IH _ _ H2), (insertionStep_Permutation _ _ _ _ H1).
  by rewrite Permutation_middle.
Qed.

(** ** The bound on a peer's requests *)

Section bound.
(** [Q] is any property of the peer a record was made for. *)
Variable Q : Peer -> Prop.

Definition within (rp : requestsPeer) : Prop :=
Q (rp_Peer rp) /\
Z.of_nat (size (Requests (nextState rp))) <= Z.max 0 (MaxRequests (rp_Peer rp)).

Definition within' (me : peersForPieceRequests) : Prop :=
within (pfp_requestsPeer me).

Lemma addNextRequest_within me r me' :
within' me -> canFitRequest (pfp_requestsPeer me) = true ->
addNextRequest me r = Ok me' -> within' me'.
Proof.
unfold within', within, addNextRequest, rp_addNextRequest, canFitRequest.
intros [HQ Hb] Hfit%Z.ltb_lt H.
destruct (decide (r ∈ _)) as [|Hnotin]; [discriminate|].
simpl in H. injection H as <-. simpl. split; [done|].
rewrite size_union by set_solver. rewrite size_singleton. lia.
Qed.

Lemma withInterested_within me b :
within' me -> within' (onPeer (fun rp => withInterested rp b) me).
Proof. done. Qed.

Lemma honourExisting_within ix r l pre l' pre' :
Forall within' l -> honourExisting ix r l pre = Ok (l', pre') -> Forall within' l'.
Proof.
revert pre l' pre'. induction l as [|me l IH]; intros pre l' pre' Hall; simpl.
- by intros [= <- _].
- apply Forall_cons in Hall as [Hme Hall].
  destruct (negb (hasExistingRequest me r) || _ || _) eqn:Hskip.
  + intros ([rest' p'] & Hrest & [= <- _])%bind_Ok.
    constructor; eauto.
  + intros (me' & Hadd & ([rest' p'] & Hrest & [= <- _])%bind_Ok)%bind_Ok.
    apply orb_false_iff in Hskip as [[_ Hfit%negb_false_iff]%orb_false_iff _].
    constructor; eauto using addNextRequest_within.
Qed.

Lemma assignRequest_within ix r l l' found :
Forall within' l -> assignRequest ix r l = Ok (l', found) -> Forall within' l'.
Proof.
revert l' found. induction l as [|me l IH]; intros l' found Hall; simpl.
- by intros [= <- _].
- apply Forall_cons in Hall as [Hme Hall].
  destruct (negb (canFitRequest _) || _) eqn:Hskip.
  + intros ([rest' f'] & Hrest & [= <- _])%bind_Ok. constructor; eauto.
  + apply orb_false_iff in Hskip as [Hfit%negb_false_iff _].
    destruct (pieceAllowedFastOrDefault _ _).
    * intros (me' & Hadd & [= <- _])%bind_Ok.
      constructor; eauto using addNextRequest_within.
    * destruct (Choking _).
      -- intros ([rest' f'] & Hrest & [= <- _])%bind_Ok. constructor; eauto.
      -- intros (me' & Hadd & [= <- _])%bind_Ok.
         constructor; [|done].
         eapply addNextRequest_within; [| |exact Hadd]; done.
Qed.

Lemma sortPeersForPiece_within by_ l l' :
Forall within' l -> sortPeersForPiece by_ l = Ok l' -> Forall within' l'.
Proof. intros Hall Hs%sortSlice_Permutation. by rewrite Hs. Qed.

Lemma updatePeer_within ptr f l :
(forall me, within' me -> within' (f me)) ->
Forall within' l -> Forall within' (updatePeer ptr f l).
Proof.
intros Hf Hall. unfold updatePeer. apply Forall_fmap.
eapply Forall_impl; [exact Hall|]. intros me Hme. simpl.
destruct (Nat.eqb _ _); auto.
Qed.

Lemma dropRequest_within me r :
within' me ->
within' (onPeer (fun rp => withRequests rp (Requests (nextState rp) ∖ {[ r ]})) me).
Proof.
unfold within', within. simpl. intros [HQ Hb]. split; [done|].
pose proof (subseteq_size (Requests (nextState (pfp_requestsPeer me)) ∖ {[ r ]})
              (Requests (nextState (pfp_requestsPeer me)))) as Hsz.
assert (Hsub : Requests (nextState (pfp_requestsPeer me)) ∖ {[ r ]}
               ⊆ Requests (nextState (pfp_requestsPeer me)))
  by apply subseteq_difference_l, reflexivity.
apply Hsz in Hsub. lia.
Qed.

Lemma honourChunk_within p acc spec acc' :
Forall within' acc.1 -> honourChunk p acc spec = Ok acc' -> Forall within' acc'.1.
Proof.
destruct acc as [l pre]. simpl.
intros Hall ([l' pre'] & H & [= <-])%bind_Ok. simpl.
eauto using honourExisting_within.
Qed.

Lemma fillChunk_within p pre acc chunk acc' :
Forall within' acc.1 -> fillChunk p pre acc chunk = Ok acc' -> Forall within' acc'.1.
Proof.
destruct acc as [l n]. unfold fillChunk. simpl. intros Hall.
destruct (decide _); [by intros [= <-]|].
intros (l1 & Hsort & ([l2 f] & Hassign & [= <-])%bind_Ok)%bind_Ok. simpl.
eauto using assignRequest_within, sortPeersForPiece_within.
Qed.

Lemma stealChunk_within p acc entry acc' :
Forall within' acc.1 -> stealChunk p acc entry = Ok acc' -> Forall within' acc'.1.
Proof.
destruct acc as [l n], entry as [chunk prePeer]. unfold stealChunk. simpl.
intros Hall (l1 & Hsort & ([l2 f] & Hassign & [= <-])%bind_Ok)%bind_Ok. simpl.
eapply assignRequest_within; [|exact Hassign].
apply updatePeer_within; [intros me Hme; by apply dropRequest_within|].
eapply sortPeersForPiece_within; [|exact Hsort].
by apply updatePeer_within.
Qed.

Lemma releasePiece_within p l :
Forall within' l -> Forall within' (releasePiece p l).
Proof.
intros Hall. unfold releasePiece. apply Forall_fmap.
eapply Forall_impl; [exact Hall|]. intros me Hme. simpl.
by destruct (canRequestPiece _ _).
Qed.

Lemma writeBack_within l peers :
Forall within' l -> Forall within peers -> Forall within (writeBack l peers).
Proof.
unfold writeBack. revert peers.
induction l as [|me l IH]; intros peers Hl Hpeers; simpl; [done|].
apply Forall_cons in Hl as [Hme Hl].
apply IH; [done|]. by apply Forall_insert.
Qed.

Lemma newPeersForPiece_within peers :
Forall within peers -> Forall within' (newPeersForPiece peers).
Proof.
intros Hall. unfold newPeersForPiece.
apply Forall_forall. intros me Hme.
apply elem_of_lookup_imap in Hme as (k & rp & -> & Hk).
unfold within'. simpl. rewrite Forall_forall in Hall.
apply Hall. by eapply list_elem_of_lookup_2.
Qed.

Lemma allocatePendingChunks_within mapOrder p peers peers' :
Forall within peers ->
allocatePendingChunks mapOrder p peers = Ok peers' -> Forall within peers'.
Proof.
intros Hall. unfold allocatePendingChunks, stealAndFinish.
intros ([l1 pre] & H1 & (acc2 & H2 & ([l3 n3] & H3 & H4)%bind_Ok)%bind_Ok)%bind_Ok.
destruct (negb _); [discriminate|]. injection H4 as <-.
apply writeBack_within; [|done]. apply releasePiece_within.
apply (foldM_invariant (fun acc => Forall within' acc.1) _
         (stealChunk_within p) _ _ _) in H3; [done|].
apply (foldM_invariant (fun acc => Forall within' acc.1) _
         (fillChunk_within p pre) _ _ _) in H2; [done|].
apply (foldM_invariant (fun acc => Forall within' acc.1) _
         (honourChunk_within p) _ _ _) in H1; [done|].
by apply newPeersForPiece_within.
Qed.

Definition all_within (ots : list orderTorrent) : Prop :=
Forall (fun ot => Forall within (peers ot)) ots.

Lemma walkPiece_within mapOrder st piece st' :
all_within (orderTorrents st) ->
walkPiece mapOrder st piece = Ok st' -> all_within (orderTorrents st').
Proof.
intros Hall. unfold walkPiece, deref.
destruct (orderTorrents st !! t piece) as [ot|] eqn:Hot; [simpl|discriminate].
destruct (claimStorage _ _ _); [|by intros [= <-]].
destruct (negb _ || _); [by intros [= <-]|].
destruct (negb _ && _); [by intros [= <-]|].
intros (peers' & Halloc & [= <-])%bind_Ok. simpl.
apply Forall_insert; [done|]. simpl.
eapply allocatePendingChunks_within; [|exact Halloc].
unfold all_within in Hall. rewrite Forall_lookup in Hall. by eapply Hall.
Qed.

Lemma walk_within mapOrder pieces st st' :
all_within (orderTorrents st) ->
walk mapOrder pieces st = Ok st' -> all_within (orderTorrents st').
Proof.
apply (foldM_invariant (fun st => all_within (orderTorrents st))).
intros s x s'. apply walkPiece_within.
Qed.

Lemma addPieces_within ot pieces peers :
Forall within peers -> Forall within (addPieces ot pieces peers).2.
Proof.
unfold addPieces. generalize (imap (fun i tp => (i, tp)) pieces) as l.
intros l. change peers with ([] : list pieceRequestOrderPiece, peers).2 at 1.
generalize ([] : list pieceRequestOrderPiece, peers) as acc.
induction l as [|[i tp] l IH]; intros [order rps] Hall; simpl; [done|].
apply IH. simpl in *. destruct (PieceRequest tp && _); [|done].
apply Forall_fmap. eapply Forall_impl; [exact Hall|].
intros rp Hrp. simpl. by destruct (canRequestPiece _ _).
Qed.

Lemma addTorrent_within callCapacity acc _t :
(forall p, p ∈ Peers _t -> Q p) ->
all_within acc.2 -> all_within (addTorrent callCapacity acc _t).2.
Proof.
destruct acc as [[m pieces] ots]. simpl. intros HQ Hall.
unfold addTorrent.
destruct (match Capacity _t with Some _ => _ | None => _ end) as [m' counter].
destruct (addPieces _ _ _) as [order peers'] eqn:Hadd. simpl.
apply Forall_app. split; [done|]. constructor; [|constructor]. simpl.
change peers' with (order, peers').2. rewrite <- Hadd.
apply addPieces_within. apply Forall_fmap, Forall_forall.
intros p Hp. split; [by apply HQ|].
cbn [nextState Requests rp_Peer]. rewrite size_empty. lia.
Qed.

End bound.

Lemma setup_within callCapacity (torrents : list Torrent) :
all_within (fun p => exists T, T ∈ torrents /\ p ∈ Peers T)
           (foldl (addTorrent callCapacity) (∅, [], []) torrents).2.
Proof.
enough (Hgen : forall l acc,
           (forall T, T ∈ l -> T ∈ torrents) ->
           all_within (fun p => exists T, T ∈ torrents /\ p ∈ Peers T) acc.2 ->
           all_within (fun p => exists T, T ∈ torrents /\ p ∈ Peers T)
                      (foldl (addTorrent callCapacity) acc l).2).
{ apply Hgen; [done|constructor]. }
induction l as [|T l IH]; intros acc Hl Hacc; simpl; [done|].
apply IH; [intros; apply Hl; by right|].
apply addTorrent_within; [|done].
intros p Hp. exists T. split; [apply Hl; left|done].
Qed.

Lemma emitPeers_lookup (P : PeerId -> PeerNextRequestState -> Prop) l ret ret' :
(forall rp, rp ∈ l -> P (Id (rp_Peer rp)) (nextState rp)) ->
(forall id st, ret !! id = Some st -> P id st) ->
foldM emitPeer l ret = Ok ret' ->
forall id st, ret' !! id = Some st -> P id st.
Proof.
revert ret. induction l as [|rp l IH]; intros ret Hl Hret; simpl.
- by intros [= <-].
- intros (ret1 & Hstep & Hrest)%bind_Ok.
  apply (IH ret1); [intros; apply Hl; by right| |done].
  unfold emitPeer in Hstep. destruct (negb _); [discriminate|].
  injection Hstep as <-. intros id st.
  rewrite lookup_insert. case_decide as Hid.
  + intros [= <-]. subst id. apply Hl. left.
  + apply Hret.
Qed.

Lemma emit_lookup ots results id st :
emit ots = Ok results -> results !! id = Some st ->
exists ot rp, ot ∈ ots /\ rp ∈ peers ot /\ Id (rp_Peer rp) = id /\ nextState rp = st.
Proof.
unfold emit. intros Hemit. revert id st.
assert (Hempty : forall id st, (∅ : gmap PeerId PeerNextRequestState) !! id = Some st ->
          exists ot rp, ot ∈ ots /\ rp ∈ peers ot /\
                        Id (rp_Peer rp) = id /\ nextState rp = st).
{ intros id st Hl. by rewrite lookup_empty in Hl. }
assert (Hsub : forall ot, ot ∈ ots -> ot ∈ ots) by done.
revert Hsub Hemit Hempty.
generalize (∅ : gmap PeerId PeerNextRequestState) as ret.
generalize ots at 1 3 as todo.
induction todo as [|ot todo IH]; intros ret Hsub; simpl.
- intros [= <-]. auto.
- intros (ret1 & Hinner & Hrest)%bind_Ok Hret.
  apply (IH ret1); [intros; apply Hsub; by right|done|].
  eapply emitPeers_lookup; [|exact Hret|exact Hinner].
  intros rp Hrp. exists ot, rp. split_and!; try done. apply Hsub. left.
Qed.

(** C2, as the code has it: every next state [DoRequests] returns is
  the state of one of the peers given to it, and holds at most
  [MaxRequests] requests of that peer, none when [MaxRequests] is not
  positive.  No constant bounds the number: the 32 of the claim is the
  bound of [fillRequests] in [client.go]. *)
Theorem requests_within_MaxRequests mapOrder callCapacity counters torrents results :
DoRequests mapOrder callCapacity counters torrents = Ok results ->
forall id st, results !! id = Some st ->
  exists T P, T ∈ torrents /\ P ∈ Peers T /\ Id P = id /\
              Z.of_nat (size (Requests st)) <= Z.max 0 (MaxRequests P).
Proof.
unfold DoRequests. intros Hrun id st Hlook.
pose proof (setup_within callCapacity torrents) as Hsetup.
destruct (foldl (addTorrent callCapacity) (∅, [], []) torrents) as [[m pieces] ots].
simpl in Hsetup.
apply bind_Ok in Hrun as (sorted & _ & (st1 & Hwalk & Hemit)%bind_Ok).
eapply walk_within in Hwalk; [|exact Hsetup].
destruct (emit_lookup _ _ _ _ Hemit Hlook) as (ot & rp & Hot & Hrp & <- & <-).
unfold all_within in Hwalk. rewrite Forall_forall in Hwalk.
specialize (Hwalk ot Hot). rewrite Forall_forall in Hwalk.
destruct (Hwalk rp Hrp) as [(T & HT & HP) Hbound].
exists T, (rp_Peer rp). by split_and!.
Qed.

Section request_bound_inputs.
Import scenario.

Lemma thirty_three_run :
has_summary {[ 2 := (true, 33%nat) ]}
          (DoRequests id (fun _ => None) (fun _ => 0) [thirty_three]) = true.
Proof. vm_compute. reflexivity. Qed.

Lemma has_summary_lookup expected res id s :
has_summary expected res = true -> expected !! id = Some s ->
exists results st, res = Ok results /\ results !! id = Some st /\ summary st = s.
Proof.
unfold has_summary. destruct res as [results|]; [|discriminate].
intros Heq%bool_decide_eq_true Hl. rewrite <- Heq, lookup_fmap in Hl.
destruct (results !! id) as [st|] eqn:Hst; [|discriminate].
injection Hl as <-. by exists results, st.
Qed.

(** C2 as stated fails: with 33 pending chunks and a peer whose
[MaxRequests] is 32767, the peer's next state holds 33 requests,
more than min(MaxRequests, 32). *)
Lemma no_cap_of_32 :
exists results st,
DoRequests id (fun _ => None) (fun _ => 0) [thirty_three] = Ok results /\
results !! Id firstStealer = Some st /\
~ Z.of_nat (size (Requests st)) <= Z.min (MaxRequests firstStealer) 32.
Proof.
destruct (has_summary_lookup _ _ 2 (true, 33%nat) thirty_three_run eq_refl)
as (results & st & Hrun & Hst & Hsum).
exists results, st. split_and!; [done|done|].
injection Hsum as _ ->. vm_compute. intros H. apply H. reflexivity.
Qed.

Lemma requests_within_MaxRequests_witness :
exists results,
DoRequests id (fun _ => None) (fun _ => 0) [thirty_three] = Ok results /\
forall id st, results !! id = Some st ->
  exists T P, T ∈ [thirty_three] /\ P ∈ Peers T /\ Id P = id /\
              Z.of_nat (size (Requests st)) <= Z.max 0 (MaxRequests P).
Proof.
destruct (has_summary_lookup _ _ 2 (true, 33%nat) thirty_three_run eq_refl)
as (results & st & Hrun & _).
exists results. split; [exact Hrun|].
exact (requests_within_MaxRequests _ _ _ _ _ Hrun).
Defined.

End request_bound_inputs.

End request_bound.

(** ** The storage counters and the unverified bytes in the walk *)

Section walk_guards.
Import request_strategy.
Import scenario.

Lemma wrap64_small z : int64_range z -> wrap64 z = z.
Proof.
unfold int64_range, wrap64. intros H.
rewrite Z.mod_small by lia. lia.
Qed.

Lemma wrap64_0 : wrap64 0 = 0.
Proof. reflexivity. Qed.

(** [walkPiece] leaves the torrent, the counter pointer and the number
  of order torrents as they are. *)
Lemma walkPiece_lookup mapOrder st piece st' k ot :
walkPiece mapOrder st piece = Ok st' ->
orderTorrents st !! k = Some ot ->
exists ot', orderTorrents st' !! k = Some ot' /\
            ot_Torrent ot' = ot_Torrent ot /\ storageLeft ot' = storageLeft ot.
Proof.
unfold walkPiece, deref. intros Hwalk Hk.
destruct (orderTorrents st !! t piece) as [pt|] eqn:Hpt; [simpl in Hwalk|discriminate].
destruct (claimStorage _ _ _); [|injection Hwalk as <-; eauto].
destruct (negb _ || _); [injection Hwalk as <-; eauto|].
destruct (negb _ && _); [injection Hwalk as <-; eauto|].
apply bind_Ok in Hwalk as (peers' & _ & [= <-]). simpl.
destruct (decide (k = t piece)) as [->|Hne].
- rewrite list_lookup_insert_eq by (by eapply lookup_lt_Some).
  rewrite Hpt in Hk. injection Hk as <-. eauto.
- rewrite list_lookup_insert_ne by done. eauto.
Qed.

(** C4: for a piece whose torrent has a storage counter, the walk
  skips the piece and leaves the whole state, counter included, as it
  is when the counter is short of the piece length; else the piece
  length is taken from the counter and no other counter changes.
  When two torrents share a counter that holds exactly one piece
  length, the piece that comes first takes it all and the piece of
  the other torrent is skipped. *)
Theorem storage_capacity_walk mapOrder st piece ot counter :
orderTorrents st !! t piece = Some ot ->
storageLeft ot = Some counter ->
(heap st counter < Length (pr_Piece piece) ->
   walkPiece mapOrder st piece = Ok st) /\
(Length (pr_Piece piece) <= heap st counter ->
   forall st', walkPiece mapOrder st piece = Ok st' ->
     heap st' counter = wrap64 (heap st counter - Length (pr_Piece piece)) /\
     (int64_range (heap st counter) -> 0 <= Length (pr_Piece piece) ->
        heap st' counter = heap st counter - Length (pr_Piece piece)) /\
     (forall other, other <> counter -> heap st' other = heap st other)) /\
(0 < Length (pr_Piece piece) ->
 heap st counter = Length (pr_Piece piece) ->
   forall st' second ot2,
     walkPiece mapOrder st piece = Ok st' ->
     orderTorrents st !! t second = Some ot2 ->
     storageLeft ot2 = Some counter ->
     Length (pr_Piece second) = Length (pr_Piece piece) ->
     heap st' counter = 0 /\ walkPiece mapOrder st' second = Ok st').
Proof.
intros Hot Hleft.
assert (Hcharged : Length (pr_Piece piece) <= heap st counter ->
          forall st', walkPiece mapOrder st piece = Ok st' ->
            heap st' = fun ptr => if ptr =? counter
                                  then wrap64 (heap st counter - Length (pr_Piece piece))
                                  else heap st ptr).
{ intros Hle st'. unfold walkPiece, deref. rewrite Hot. simpl.
  unfold claimStorage. rewrite Hleft.
  destruct (Z.ltb_spec (heap st counter) (Length (pr_Piece piece))); [lia|].
  destruct (negb _ || _); [by intros [= <-]|].
  destruct (negb _ && _); [by intros [= <-]|].
  by intros (peers' & _ & [= <-])%bind_Ok. }
split_and!.
- intros Hlt. unfold walkPiece, deref. rewrite Hot. simpl.
  unfold claimStorage. rewrite Hleft.
  by destruct (Z.ltb_spec (heap st counter) (Length (pr_Piece piece))); [|lia].
- intros Hle st' Hwalk. rewrite (Hcharged Hle st' Hwalk). split_and!.
  + by rewrite Z.eqb_refl.
  + intros Hrange Hpos. rewrite Z.eqb_refl. apply wrap64_small.
    unfold int64_range in *. lia.
  + intros other Hne. by destruct (Z.eqb_spec other counter).
- intros Hpos Hheap st' second ot2 Hwalk Hot2 Hleft2 Hlen.
  assert (H0 : heap st' counter = 0).
  { rewrite (Hcharged ltac:(lia) st' Hwalk), Z.eqb_refl, Hheap, Z.sub_diag.
    apply wrap64_0. }
  split; [done|].
  destruct (walkPiece_lookup _ _ _ _ _ _ Hwalk Hot2) as (ot2' & Hot2' & _ & Hl2').
  unfold walkPiece, deref. rewrite Hot2'. simpl.
  unfold claimStorage. rewrite Hl2', Hleft2, H0, Hlen.
  by destruct (Z.ltb_spec 0 (Length (pr_Piece piece))); [|lia].
Qed.

(** The sort puts the piece of the second torrent, the one with the
  smaller stable id, first. *)
Lemma sharing_sorted :
sort sharing_setup.2 sharing_setup.1.2 = Ok [sharing_piece 1; sharing_piece 0].
Proof. vm_compute. reflexivity. Qed.

(** The walk gives the chunk to the peer of the second torrent, takes the
  counter down to zero, and leaves the peer of the first torrent
  without a request. *)
Lemma sharing_walk :
exists st,
  walk id [sharing_piece 1; sharing_piece 0] sharing_state = Ok st /\
  requestsOf st = [ [(2, [])];
                    [(3, [requestOf (sharing_piece 1)
                                    {| Begin := 0; ChunkLength := 1 |}])] ] /\
  heap st 100 = 0.
Proof. eexists. split_and!; vm_compute; reflexivity. Qed.

(** The skipped piece still counts as requestable for the peer of the
  first torrent, so the last loop of [DoRequests] panics. *)
Lemma sharing_DoRequests :
DoRequests id sharedCapacity sharedCounters sharing_torrents
= Panic (RequestablePiecesRemaining 1).
Proof. vm_compute. reflexivity. Qed.

Lemma storage_capacity_walk_witness :
exists st',
  walkPiece id sharing_state (sharing_piece 1) = Ok st' /\
  heap st' 100 = 0 /\
  walkPiece id st' (sharing_piece 0) = Ok st'.
Proof.
destruct (walkPiece id sharing_state (sharing_piece 1)) as [st'|] eqn:Hwalk;
  [|by vm_compute in Hwalk].
exists st'. split; [done|].
assert (Hot : exists ot, orderTorrents sharing_state !! t (sharing_piece 1) = Some ot /\
                         storageLeft ot = Some 100).
{ eexists. split; vm_compute; reflexivity. }
destruct Hot as (ot & Hot & Hleft).
assert (Hot2 : exists ot2, orderTorrents sharing_state !! t (sharing_piece 0) = Some ot2 /\
                           storageLeft ot2 = Some 100).
{ eexists. split; vm_compute; reflexivity. }
destruct Hot2 as (ot2 & Hot2 & Hleft2).
apply (proj2 (proj2 (storage_capacity_walk id sharing_state (sharing_piece 1) ot 100
                       Hot Hleft))
         eq_refl eq_refl st' (sharing_piece 0) ot2 Hwalk Hot2 Hleft2 eq_refl).
Defined.

(** What one iteration of the walk does to the order torrents: nothing,
  or [allocatePendingChunks] ran for the piece, its peers were stored
  and its length was charged; the latter only under the ceiling. *)
Lemma walkPiece_effect mapOrder st piece ot st' :
orderTorrents st !! t piece = Some ot ->
walkPiece mapOrder st piece = Ok st' ->
orderTorrents st' = orderTorrents st \/
exists peers',
  allocatePendingChunks mapOrder piece (peers ot) = Ok peers' /\
  orderTorrents st'
  = <[t piece := charge ot (Length (pr_Piece piece)) peers']> (orderTorrents st) /\
  (MaxUnverifiedBytes (ot_Torrent ot) = 0 \/
   wrap64 (unverifiedBytes ot + Length (pr_Piece piece))
   <= MaxUnverifiedBytes (ot_Torrent ot)).
Proof.
intros Hot. unfold walkPiece, deref. rewrite Hot. simpl.
destruct (claimStorage _ _ _); [|intros [= <-]; by left].
destruct (negb _ || _); [intros [= <-]; by left|].
destruct (negb _ && _) eqn:Hceil; [intros [= <-]; by left|].
intros (peers' & Halloc & [= <-])%bind_Ok. right. exists peers'.
split_and!; [done|done|].
apply andb_false_iff in Hceil as [Hz%negb_false_iff%Z.eqb_eq|Hle%Z.ltb_ge]; auto.
Qed.

(** C3: a torrent with a non-zero [MaxUnverifiedBytes] has the walk
  skip, without allocation and without charge, a piece whose length
  would take the unverified bytes over the ceiling; the piece length
  is charged only together with an allocation, which happens only
  under the ceiling or without one; with [MaxUnverifiedBytes] zero a
  piece to request that passed the storage check is allocated
  whatever the sum. *)
Theorem unverified_bytes_ceiling mapOrder st piece ot :
orderTorrents st !! t piece = Some ot ->
int64_range (unverifiedBytes ot + Length (pr_Piece piece)) ->
(MaxUnverifiedBytes (ot_Torrent ot) <> 0 ->
 MaxUnverifiedBytes (ot_Torrent ot) < unverifiedBytes ot + Length (pr_Piece piece) ->
   exists heap',
     walkPiece mapOrder st piece
     = Ok {| heap := heap'; orderTorrents := orderTorrents st |}) /\
(forall st', walkPiece mapOrder st piece = Ok st' ->
   orderTorrents st' = orderTorrents st \/
   exists peers',
     allocatePendingChunks mapOrder piece (peers ot) = Ok peers' /\
     orderTorrents st'
     = <[t piece := {| ot_Torrent := ot_Torrent ot;
                       unverifiedBytes := unverifiedBytes ot + Length (pr_Piece piece);
                       storageLeft := storageLeft ot;
                       peers := peers' |}]> (orderTorrents st) /\
     (MaxUnverifiedBytes (ot_Torrent ot) = 0 \/
      unverifiedBytes ot + Length (pr_Piece piece)
      <= MaxUnverifiedBytes (ot_Torrent ot))) /\
(MaxUnverifiedBytes (ot_Torrent ot) = 0 ->
 PieceRequest (pr_Piece piece) = true ->
 NumPendingChunks (pr_Piece piece) <> 0 ->
 forall heap',
   claimStorage (heap st) (storageLeft ot) (Length (pr_Piece piece)) = Some heap' ->
   walkPiece mapOrder st piece
   = bind (allocatePendingChunks mapOrder piece (peers ot))
          (fun peers' =>
             Ok {| heap := heap';
                   orderTorrents :=
                     <[t piece := {| ot_Torrent := ot_Torrent ot;
                                     unverifiedBytes :=
                                       unverifiedBytes ot + Length (pr_Piece piece);
                                     storageLeft := storageLeft ot;
                                     peers := peers' |}]> (orderTorrents st) |})).
Proof.
intros Hot Hrange. split_and!.
- intros Hnz Hlt. unfold walkPiece, deref. rewrite Hot. simpl.
  destruct (claimStorage _ _ _) as [heap'|].
  + exists heap'. destruct (negb _ || _); [done|].
    rewrite (wrap64_small _ Hrange).
    destruct (Z.eqb_spec (MaxUnverifiedBytes (ot_Torrent ot)) 0); [done|].
    by destruct (Z.ltb_spec (MaxUnverifiedBytes (ot_Torrent ot))
                   (unverifiedBytes ot + Length (pr_Piece piece))); [|lia].
  + exists (heap st). by destruct st.
- intros st' Hwalk.
  destruct (walkPiece_effect _ _ _ _ _ Hot Hwalk) as [?|(peers' & ? & ? & ?)];
    [by left|right].
  exists peers'. unfold charge in *. by rewrite (wrap64_small _ Hrange) in *.
- intros Hz Hreq Hpending heap' Hclaim.
  unfold walkPiece, deref. rewrite Hot. simpl. rewrite Hclaim, Hreq, Hz. simpl.
  destruct (Z.eqb_spec (NumPendingChunks (pr_Piece piece)) 0); [done|].
  unfold charge. by rewrite (wrap64_small _ Hrange).
Qed.

(** Over a whole walk the unverified bytes of a torrent with a ceiling
  [M] stay between zero and the ceiling, when no piece length is
  negative or so large that the sum leaves the 64-bit range. *)
Lemma walk_unverified_bytes mapOrder k M pieces :
0 < M ->
(forall p, p ∈ pieces ->
   0 <= Length (pr_Piece p) /\ M + Length (pr_Piece p) < 2 ^ 63) ->
forall st st' ot,
  walk mapOrder pieces st = Ok st' ->
  orderTorrents st !! k = Some ot ->
  MaxUnverifiedBytes (ot_Torrent ot) = M ->
  0 <= unverifiedBytes ot <= M ->
  exists ot', orderTorrents st' !! k = Some ot' /\
              MaxUnverifiedBytes (ot_Torrent ot') = M /\
              0 <= unverifiedBytes ot' <= M.
Proof.
intros HM. induction pieces as [|p pieces IH]; intros Hlen st st' ot Hwalk Hot HMot Hu;
  simpl in Hwalk.
- injection Hwalk as <-. eauto.
- apply bind_Ok in Hwalk as (st1 & Hstep & Hrest).
  destruct (Hlen p ltac:(left)) as [Hp0 Hp1].
  assert (H1 : exists ot1, orderTorrents st1 !! k = Some ot1 /\
                           MaxUnverifiedBytes (ot_Torrent ot1) = M /\
                           0 <= unverifiedBytes ot1 <= M).
  { destruct (orderTorrents st !! t p) as [pt|] eqn:Hpt;
      [|by unfold walkPiece, deref in Hstep; rewrite Hpt in Hstep].
    destruct (walkPiece_effect _ _ _ _ _ Hpt Hstep)
      as [Hsame|(peers' & _ & Hnew & Hceil)].
    - exists ot. by rewrite Hsame.
    - rewrite Hnew. destruct (decide (k = t p)) as [->|Hne].
      + rewrite Hpt in Hot. injection Hot as ->.
        exists (charge ot (Length (pr_Piece p)) peers').
        rewrite list_lookup_insert_eq by (by eapply lookup_lt_Some).
        split_and!; try done; simpl;
          rewrite wrap64_small in * by (unfold int64_range; lia); lia.
      + exists ot. by rewrite list_lookup_insert_ne. }
  destruct H1 as (ot1 & Hot1 & HT1 & Hu1).
  eapply (IH ltac:(intros; apply Hlen; by right) st1 st' ot1); done.
Qed.

Lemma ceiling_sorted :
sort ceiling_setup.2 ceiling_setup.1.2
= Ok [ceiling_piece 0; ceiling_piece 1; ceiling_piece 2].
Proof. vm_compute. reflexivity. Qed.

(** The walk allocates the first two pieces and skips the third. *)
Lemma ceiling_walk :
exists st,
  walk id [ceiling_piece 0; ceiling_piece 1; ceiling_piece 2] ceiling_state = Ok st /\
  requestsOf st
  = [ [(2, [requestOf (ceiling_piece 0) {| Begin := 0; ChunkLength := 1 |};
            requestOf (ceiling_piece 1) {| Begin := 0; ChunkLength := 1 |}])] ] /\
  map unverifiedBytes (orderTorrents st) = [2 * pieceLength].
Proof. eexists. split_and!; vm_compute; reflexivity. Qed.

(** The skipped piece still counts as requestable for the peer, so the
  last loop of [DoRequests] panics. *)
Lemma ceiling_DoRequests :
DoRequests id (fun _ => None) (fun _ => 0) [ceiling]
= Panic (RequestablePiecesRemaining 1).
Proof. vm_compute. reflexivity. Qed.

Lemma unverified_bytes_ceiling_witness :
exists st heap',
  walk id [ceiling_piece 0; ceiling_piece 1] ceiling_state = Ok st /\
  walkPiece id st (ceiling_piece 2)
  = Ok {| heap := heap'; orderTorrents := orderTorrents st |}.
Proof.
destruct (walk id [ceiling_piece 0; ceiling_piece 1] ceiling_state) as [st|] eqn:Hwalk;
  [|by vm_compute in Hwalk].
assert (Hot : exists ot, orderTorrents st !! t (ceiling_piece 2) = Some ot /\
                         unverifiedBytes ot = 2 * pieceLength /\
                         MaxUnverifiedBytes (ot_Torrent ot) = 2 * pieceLength).
{ vm_compute in Hwalk. injection Hwalk as <-. eexists. split_and!; reflexivity. }
destruct Hot as (ot & Hot & Hu & HM).
destruct (proj1 (unverified_bytes_ceiling id st (ceiling_piece 2) ot Hot
                   ltac:(rewrite Hu; by vm_compute))
            ltac:(rewrite HM; by vm_compute)
            ltac:(rewrite HM, Hu; by vm_compute)) as [heap' Hskip].
by exists st, heap'.
Defined.

End walk_guards.

(** * Further properties *)

Section scheduler_frame.
Import request_strategy.

(** ** What [allocatePendingChunks] leaves alone

    The passes move the records of [peersForPiece] around and change
    their requests, their interest and their count of requests in the
    piece; the slot a record came from, the peer it stands for and its
    count of requestable pieces stay. *)

Definition identity (me : peersForPieceRequests) : nat * Peer * Z :=
  (slot me, rp_Peer (pfp_requestsPeer me),
   requestablePiecesRemaining (pfp_requestsPeer me)).

Lemma addNextRequest_identity me r me' :
  addNextRequest me r = Ok me' -> identity me' = identity me.
Proof.
  unfold addNextRequest, rp_addNextRequest.
  destruct (decide _); [discriminate|]. by intros [= <-].
Qed.

Lemma honourExisting_identity ix r l pre l' pre' :
  honourExisting ix r l pre = Ok (l', pre') -> map identity l' = map identity l.
Proof.
  revert pre l' pre'. induction l as [|me l IH]; intros pre l' pre'; simpl.
  - by intros [= <- _].
  - destruct (negb _ || _ || _).
    + intros ([rest' p'] & Hrest & [= <- _])%bind_Ok. simpl. f_equal. eauto.
    + intros (me' & Hadd & ([rest' p'] & Hrest & [= <- _])%bind_Ok)%bind_Ok.
      simpl. f_equal; eauto using addNextRequest_identity.
Qed.

Lemma assignRequest_identity ix r l l' found :
  assignRequest ix r l = Ok (l', found) -> map identity l' = map identity l.
Proof.
  revert l' found. induction l as [|me l IH]; intros l' found; simpl.
  - by intros [= <- _].
  - destruct (negb _ || _).
    + intros ([rest' f'] & Hrest & [= <- _])%bind_Ok. simpl. f_equal. eauto.
    + destruct (pieceAllowedFastOrDefault _ _).
      * intros (me' & Hadd & [= <- _])%bind_Ok. simpl. f_equal.
        eauto using addNextRequest_identity.
      * destruct (Choking _).
        -- intros ([rest' f'] & Hrest & [= <- _])%bind_Ok. simpl. f_equal. eauto.
        -- intros (me' & Hadd & [= <- _])%bind_Ok. simpl. f_equal.
           by rewrite (addNextRequest_identity _ _ _ Hadd).
Qed.

Lemma updatePeer_identity ptr f l :
  (forall me, identity (f me) = identity me) ->
  map identity (updatePeer ptr f l) = map identity l.
Proof.
  intros Hf. unfold updatePeer. rewrite map_map. apply map_ext.
  intros me. by destruct (Nat.eqb _ _).
Qed.

Lemma honourChunk_identity p acc spec acc' :
  honourChunk p acc spec = Ok acc' -> map identity acc'.1 = map identity acc.1.
Proof.
  destruct acc as [l pre]. simpl.
  intros ([l' pre'] & H & [= <-])%bind_Ok. simpl.
  eauto using honourExisting_identity.
Qed.

Lemma fillChunk_identity p pre acc chunk acc' :
  fillChunk p pre acc chunk = Ok acc' -> map identity acc'.1 ≡ₚ map identity acc.1.
Proof.
  destruct acc as [l n]. unfold fillChunk. simpl.
  destruct (decide _); [by intros [= <-]|].
  intros (l1 & Hsort & ([l2 f] & Hassign & [= <-])%bind_Ok)%bind_Ok. simpl.
  rewrite (assignRequest_identity _ _ _ _ _ Hassign).
  apply Permutation_map. by eapply sortSlice_Permutation.
Qed.

Lemma stealChunk_identity p acc entry acc' :
  stealChunk p acc entry = Ok acc' -> map identity acc'.1 ≡ₚ map identity acc.1.
Proof.
  destruct acc as [l n], entry as [chunk prePeer]. unfold stealChunk. simpl.
  intros (l1 & Hsort & ([l2 f] & Hassign & [= <-])%bind_Ok)%bind_Ok. simpl.
  rewrite (assignRequest_identity _ _ _ _ _ Hassign).
  rewrite updatePeer_identity by done.
  rewrite (Permutation_map identity (sortSlice_Permutation _ _ _ Hsort)).
  by rewrite updatePeer_identity.
Qed.

Lemma imap_index {A} (l : list A) n :
  imap (fun k _ => (n + k)%nat) l = seq n (length l).
Proof.
  revert n. induction l as [|x l IH]; intros n; simpl; [done|].
  f_equal; [lia|]. rewrite <- IH. apply imap_ext. intros; simpl; lia.
Qed.

Lemma newPeersForPiece_identity peers :
  map identity (newPeersForPiece peers)
  = imap (fun k rp => (k, rp_Peer rp, requestablePiecesRemaining rp)) peers.
Proof.
  unfold newPeersForPiece.
  change (map identity ?l) with (identity <$> l). by rewrite fmap_imap.
Qed.

Lemma writeBack_length l peers : length (writeBack l peers) = length peers.
Proof.
  unfold writeBack. revert peers.
  induction l as [|me l IH]; intros peers; simpl; [done|].
  by rewrite IH, length_insert.
Qed.

Lemma writeBack_other l peers k :
  k ∉ map slot l -> writeBack l peers !! k = peers !! k.
Proof.
  unfold writeBack. revert peers.
  induction l as [|me l IH]; intros peers Hk; simpl; [done|].
  simpl in Hk. apply not_elem_of_cons in Hk as [Hne Hk].
  rewrite IH by done. by apply list_lookup_insert_ne.
Qed.

(** A record is stored in the slot it was taken from. *)
Lemma writeBack_lookup l peers me :
  NoDup (map slot l) -> me ∈ l -> (slot me < length peers)%nat ->
  writeBack l peers !! slot me = Some (pfp_requestsPeer me).
Proof.
  revert peers. induction l as [|x l IH]; intros peers Hnd Hin Hlt.
  - by apply elem_of_nil in Hin.
  - simpl in Hnd. apply NoDup_cons in Hnd as [Hx Hnd].
    change (writeBack (x :: l) peers)
      with (writeBack l (<[slot x := pfp_requestsPeer x]> peers)).
    apply elem_of_cons in Hin as [->|Hin].
    + rewrite writeBack_other by done. by apply list_lookup_insert_eq.
    + apply IH; [done|done|by rewrite length_insert].
Qed.

Lemma releasePiece_slot p l : map slot (releasePiece p l) = map slot l.
Proof.
  unfold releasePiece. rewrite map_map. apply map_ext. intros me.
  by destruct (canRequestPiece _ _).
Qed.

(** [allocatePendingChunks] returns as many records as it was given,
    each for the same peer as before, and the count of requestable
    pieces of a peer goes down by one exactly when the peer can request
    the piece. *)
Lemma allocatePendingChunks_frame mapOrder p peers peers' :
  allocatePendingChunks mapOrder p peers = Ok peers' ->
  length peers' = length peers /\
  forall k rp, peers !! k = Some rp ->
    exists rp', peers' !! k = Some rp' /\
                rp_Peer rp' = rp_Peer rp /\
                requestablePiecesRemaining rp'
                = requestablePiecesRemaining rp
                  - (if canRequestPiece (rp_Peer rp) (index p) then 1 else 0).
Proof.
  unfold allocatePendingChunks, stealAndFinish.
  intros ([l1 pre] & H1 & (acc2 & H2 & ([l3 n3] & H3 & H4)%bind_Ok)%bind_Ok)%bind_Ok.
  destruct (negb _); [discriminate|]. injection H4 as <-.
  split; [apply writeBack_length|].
  assert (Hid : map identity l3 ≡ₚ map identity (newPeersForPiece peers)).
  { apply (foldM_invariant
             (fun acc => map identity acc.1 ≡ₚ map identity (newPeersForPiece peers))
             (stealChunk p)) in H3; [done| |].
    { intros s x s' Hs Hstep. by rewrite (stealChunk_identity _ _ _ _ Hstep). }
    apply (foldM_invariant
             (fun acc => map identity acc.1 ≡ₚ map identity (newPeersForPiece peers))
             (fillChunk p pre)) in H2; [done| |].
    { intros s x s' Hs Hstep. by rewrite (fillChunk_identity _ _ _ _ _ Hstep). }
    apply (foldM_invariant
             (fun acc => map identity acc.1 = map identity (newPeersForPiece peers))
             (honourChunk p)) in H1; [simpl in *; by rewrite H1| |done].
    intros s x s' Hs Hstep. by rewrite (honourChunk_identity _ _ _ _ Hstep). }
  rewrite newPeersForPiece_identity in Hid.
  assert (Hslots : NoDup (map slot (releasePiece p l3))).
  { rewrite releasePiece_slot.
    replace (map slot l3) with (map (fun i => i.1.1) (map identity l3))
      by (rewrite map_map; by apply map_ext).
    rewrite Hid. change (map ?f ?l) with (f <$> l). rewrite fmap_imap.
    rewrite (imap_ext _ (fun k _ => (0 + k)%nat)) by done.
    rewrite imap_index. apply NoDup_seq. }
  intros k rp Hk.
  assert (Hin : (k, rp_Peer rp, requestablePiecesRemaining rp) ∈ map identity l3).
  { rewrite Hid. apply elem_of_lookup_imap. eauto. }
  change (map ?f ?l) with (f <$> l) in Hin.
  apply list_elem_of_fmap in Hin as (me & Hme & Hin).
  injection Hme as -> HP HR.
  set (me' := if canRequestPiece (rp_Peer (pfp_requestsPeer me)) (index p)
              then onPeer (fun rp => withRemaining rp (requestablePiecesRemaining rp - 1)) me
              else me).
  assert (Hin' : me' ∈ releasePiece p l3).
  { unfold releasePiece. change (map ?f ?l) with (f <$> l). apply list_elem_of_fmap.
    by exists me. }
  assert (Hslot : slot me' = slot me) by (unfold me'; by destruct (canRequestPiece _ _)).
  exists (pfp_requestsPeer me'). split_and!.
  - rewrite <- Hslot. apply writeBack_lookup; [done|done|].
    rewrite Hslot. by eapply lookup_lt_Some.
  - unfold me'. rewrite HP. by destruct (canRequestPiece _ _).
  - unfold me'. rewrite HP, HR. destruct (canRequestPiece _ _); simpl; lia.
Qed.

End scheduler_frame.

Section scheduler_peers.
Import request_strategy.

(** ** The order torrents mirror the torrents *)

(** The order torrent [ot] stands for the torrent [T]: it points to
    it, and its peer records are those of the peers of [T], in order. *)
Definition mirrors (T : Torrent) (ot : orderTorrent) : Prop :=
  ot_Torrent ot = T /\ map rp_Peer (peers ot) = Peers T.

Lemma addPiece_peers ot acc entry :
  map rp_Peer (addPiece ot acc entry).2 = map rp_Peer acc.2.
Proof.
  destruct acc as [order rps], entry as [i tp]. simpl.
  destruct (PieceRequest tp && _); [|done].
  rewrite map_map. apply map_ext. intros rp. by destruct (canRequestPiece _ _).
Qed.

Lemma addPieces_peers ot pieces rps :
  map rp_Peer (addPieces ot pieces rps).2 = map rp_Peer rps.
Proof.
  unfold addPieces. generalize (imap (fun i tp => (i, tp)) pieces) as l. intros l.
  change (map rp_Peer rps) with (map rp_Peer ([] : list pieceRequestOrderPiece, rps).2).
  generalize ([] : list pieceRequestOrderPiece, rps) as acc.
  induction l as [|e l IH]; intros acc; simpl; [done|].
  by rewrite IH, addPiece_peers.
Qed.

Lemma addTorrent_mirrors callCapacity acc _t done_ :
  Forall2 mirrors done_ acc.2 ->
  Forall2 mirrors (done_ ++ [_t]) (addTorrent callCapacity acc _t).2.
Proof.
  destruct acc as [[m pieces] ots]. simpl. intros Hall. unfold addTorrent.
  destruct (match Capacity _t with Some _ => _ | None => _ end) as [m' counter].
  destruct (addPieces _ _ _) as [order peers'] eqn:Hadd. simpl.
  apply Forall2_app; [done|]. constructor; [|constructor].
  split; [done|]. simpl.
  change peers' with (order, peers').2. rewrite <- Hadd, addPieces_peers.
  rewrite map_map. simpl. apply map_id.
Qed.

Lemma setup_mirrors callCapacity torrents :
  Forall2 mirrors torrents (foldl (addTorrent callCapacity) (∅, [], []) torrents).2.
Proof.
  enough (Hgen : forall l done_ acc,
             Forall2 mirrors done_ acc.2 ->
             Forall2 mirrors (done_ ++ l) (foldl (addTorrent callCapacity) acc l).2).
  { apply (Hgen torrents [] (∅, [], [])). constructor. }
  induction l as [|T l IH]; intros done_ acc Hacc; simpl.
  - by rewrite app_nil_r.
  - replace (done_ ++ T :: l) with ((done_ ++ [T]) ++ l) by (by rewrite <- app_assoc).
    apply IH. by apply addTorrent_mirrors.
Qed.

Lemma walkPiece_mirrors mapOrder torrents st piece st' :
  Forall2 mirrors torrents (orderTorrents st) ->
  walkPiece mapOrder st piece = Ok st' ->
  Forall2 mirrors torrents (orderTorrents st').
Proof.
  intros Hall. unfold walkPiece, deref.
  destruct (orderTorrents st !! t piece) as [ot|] eqn:Hot; [simpl|discriminate].
  destruct (claimStorage _ _ _); [|by intros [= <-]].
  destruct (negb _ || _); [by intros [= <-]|].
  destruct (negb _ && _); [by intros [= <-]|].
  intros (peers' & Halloc & [= <-])%bind_Ok. simpl.
  destruct (Forall2_lookup_r _ _ _ _ _ Hall Hot) as (T & HT & [HTot Hpeers]).
  rewrite <- (list_insert_id torrents (t piece) T) by done.
  apply Forall2_insert; [done|]. split; [done|]. simpl. rewrite <- Hpeers.
  destruct (allocatePendingChunks_frame _ _ _ _ Halloc) as [Hlen Hframe].
  apply list_eq. intros k. change (map ?f ?l) with (f <$> l). rewrite !list_lookup_fmap.
  destruct (peers ot !! k) as [rp|] eqn:Hk; simpl.
  - destruct (Hframe k rp Hk) as (rp' & -> & HP & _). simpl. by rewrite HP.
  - apply lookup_ge_None in Hk. rewrite <- Hlen in Hk.
    apply lookup_ge_None in Hk. by rewrite Hk.
Qed.

Lemma walk_mirrors mapOrder torrents pieces st st' :
  Forall2 mirrors torrents (orderTorrents st) ->
  walk mapOrder pieces st = Ok st' ->
  Forall2 mirrors torrents (orderTorrents st').
Proof.
  apply (foldM_invariant (fun st => Forall2 mirrors torrents (orderTorrents st))).
  intros s x s'. apply walkPiece_mirrors.
Qed.

Lemma emitPeers_keys l ret ret' :
  foldM emitPeer l ret = Ok ret' ->
  (forall id, is_Some (ret !! id) -> is_Some (ret' !! id)) /\
  (forall rp, rp ∈ l -> is_Some (ret' !! Id (rp_Peer rp))).
Proof.
  revert ret. induction l as [|rp l IH]; intros ret; simpl.
  - intros [= <-]. split; [done|]. intros rp Hrp. by apply elem_of_nil in Hrp.
  - intros (ret1 & Hstep & Hrest)%bind_Ok.
    destruct (IH _ Hrest) as [Hkeep Hnew].
    unfold emitPeer in Hstep. destruct (negb _); [discriminate|]. injection Hstep as <-.
    split.
    + intros id Hid. apply Hkeep. rewrite lookup_insert. by case_decide.
    + intros rp' [->|Hin]%elem_of_cons; [|by apply Hnew].
      apply Hkeep. by rewrite lookup_insert_eq.
Qed.

Lemma emit_keys ots results ot rp :
  emit ots = Ok results -> ot ∈ ots -> rp ∈ peers ot ->
  is_Some (results !! Id (rp_Peer rp)).
Proof.
  unfold emit. generalize (∅ : gmap PeerId PeerNextRequestState) as ret.
  induction ots as [|ot' ots IH]; intros ret Hemit Hot Hrp.
  - by apply elem_of_nil in Hot.
  - simpl in Hemit. apply bind_Ok in Hemit as (ret1 & Hinner & Hrest).
    apply elem_of_cons in Hot as [->|Hot]; [|by eapply IH].
    destruct (emitPeers_keys _ _ _ Hinner) as [_ Hnew].
    specialize (Hnew rp Hrp). clear -Hnew Hrest.
    revert ret1 Hnew Hrest. induction ots as [|ot ots IH]; intros ret1 Hnew; simpl.
    + by intros [= <-].
    + intros (ret2 & Hinner & Hrest)%bind_Ok.
      apply (IH ret2); [|done]. by apply (proj1 (emitPeers_keys _ _ _ Hinner)).
Qed.

(** When [DoRequests] returns, it returns a next state for every peer
    of every torrent. *)
Theorem DoRequests_every_peer mapOrder callCapacity counters torrents results :
  DoRequests mapOrder callCapacity counters torrents = Ok results ->
  forall T P, T ∈ torrents -> P ∈ Peers T -> is_Some (results !! Id P).
Proof.
  unfold DoRequests. intros Hrun T P HT HP.
  pose proof (setup_mirrors callCapacity torrents) as Hsetup.
  destruct (foldl (addTorrent callCapacity) (∅, [], []) torrents) as [[m pieces] ots].
  simpl in Hsetup.
  apply bind_Ok in Hrun as (sorted & _ & (st1 & Hwalk & Hemit)%bind_Ok).
  eapply walk_mirrors in Hwalk; [|exact Hsetup]. simpl in Hwalk.
  apply list_elem_of_lookup in HT as [k Hk].
  destruct (Forall2_lookup_l _ _ _ _ _ Hwalk Hk) as (ot & Hot & [_ Hpeers]).
  rewrite <- Hpeers in HP. change (map ?f ?l) with (f <$> l) in HP.
  apply list_elem_of_fmap in HP as (rp & -> & Hrp).
  eapply emit_keys; [exact Hemit| |exact Hrp].
  by eapply list_elem_of_lookup_2.
Qed.

Lemma has_summary_Ok expected res :
  scenario.has_summary expected res = true -> exists results, res = Ok results.
Proof. destruct res as [results|]; [eauto|discriminate]. Qed.

Lemma stealing_run :
  scenario.has_summary scenario.stealing_expected
    (DoRequests id (fun _ => None) (fun _ => 0) [scenario.stealing]) = true.
Proof. vm_compute. reflexivity. Qed.

Lemma DoRequests_every_peer_witness :
  exists results,
    DoRequests id (fun _ => None) (fun _ => 0) [scenario.stealing] = Ok results /\
    forall T P, T ∈ [scenario.stealing] -> P ∈ Peers T -> is_Some (results !! Id P).
Proof.
  destruct (has_summary_Ok _ _ stealing_run) as [results Hrun].
  exists results. split; [exact Hrun|].
  exact (DoRequests_every_peer _ _ _ _ _ Hrun).
Defined.

End scheduler_peers.

Section scheduler_provenance.
Import request_strategy.

(** ** Where a request comes from *)

Definition reportsExisting (P : Peer) (r : Request) : bool :=
  match HasExistingRequest P with
  | Some h => h r
  | None => false
  end.

(** The two ways in which [allocatePendingChunks] gives the request
    [r] of the piece [ix] to the peer [P]: the peer reported it as an
    existing request and can request the piece, or the peer has the
    piece and either has it allowed fast or is not choking. *)
Definition eligible (P : Peer) (ix : pieceIndex) (r : Request) : Prop :=
  (reportsExisting P r = true /\ canRequestPiece P ix = true) \/
  (HasPiece P ix = true /\
   (pieceAllowedFastOrDefault P ix = true \/ Choking P = false)).

Section provenance.
(** [J P r]: the peer [P] may hold the request [r]. *)
Variable J : Peer -> Request -> Prop.

Definition holds (rp : requestsPeer) : Prop :=
  forall r, r ∈ Requests (nextState rp) -> J (rp_Peer rp) r.

Definition holds' (me : peersForPieceRequests) : Prop := holds (pfp_requestsPeer me).

Lemma addNextRequest_holds me r me' :
  holds' me -> J (rp_Peer (pfp_requestsPeer me)) r ->
  addNextRequest me r = Ok me' -> holds' me'.
Proof.
  unfold holds', holds, addNextRequest, rp_addNextRequest.
  intros Hme HJ H. destruct (decide _); [discriminate|]. simpl in H.
  injection H as <-. simpl. intros r' [->%elem_of_singleton|Hr']%elem_of_union; auto.
Qed.

Lemma honourExisting_holds ix r l pre l' pre' :
  (forall P, reportsExisting P r = true -> canRequestPiece P ix = true -> J P r) ->
  Forall holds' l -> honourExisting ix r l pre = Ok (l', pre') -> Forall holds' l'.
Proof.
  intros HJ. revert pre l' pre'.
  induction l as [|me l IH]; intros pre l' pre' Hall; simpl.
  - by intros [= <- _].
  - apply Forall_cons in Hall as [Hme Hall].
    destruct (negb (hasExistingRequest me r)) eqn:Hex; simpl.
    { intros ([rest' p'] & Hrest & [= <- _])%bind_Ok. constructor; eauto. }
    destruct (negb (canFitRequest _)); simpl.
    { intros ([rest' p'] & Hrest & [= <- _])%bind_Ok. constructor; eauto. }
    destruct (negb (canRequestPiece _ _)) eqn:Hcan; simpl.
    { intros ([rest' p'] & Hrest & [= <- _])%bind_Ok. constructor; eauto. }
    intros (me' & Hadd & ([rest' p'] & Hrest & [= <- _])%bind_Ok)%bind_Ok.
    constructor; [|eauto].
    eapply addNextRequest_holds; [exact Hme| |exact Hadd].
    apply HJ; [by apply negb_false_iff in Hex|by apply negb_false_iff in Hcan].
Qed.

Lemma assignRequest_holds ix r l l' found :
  (forall P, HasPiece P ix = true ->
             pieceAllowedFastOrDefault P ix = true \/ Choking P = false -> J P r) ->
  Forall holds' l -> assignRequest ix r l = Ok (l', found) -> Forall holds' l'.
Proof.
  intros HJ. revert l' found.
  induction l as [|me l IH]; intros l' found Hall; simpl.
  - by intros [= <- _].
  - apply Forall_cons in Hall as [Hme Hall].
    destruct (negb (canFitRequest _)); simpl.
    { intros ([rest' f'] & Hrest & [= <- _])%bind_Ok. constructor; eauto. }
    destruct (negb (HasPiece _ _)) eqn:Hhas; simpl.
    { intros ([rest' f'] & Hrest & [= <- _])%bind_Ok. constructor; eauto. }
    apply negb_false_iff in Hhas.
    destruct (pieceAllowedFastOrDefault _ _) eqn:Hfast.
    + intros (me' & Hadd & [= <- _])%bind_Ok. constructor; [|done].
      eapply addNextRequest_holds; [exact Hme| |exact Hadd]. apply HJ; auto.
    + destruct (Choking _) eqn:Hchoke.
      * intros ([rest' f'] & Hrest & [= <- _])%bind_Ok. constructor; eauto.
      * intros (me' & Hadd & [= <- _])%bind_Ok. constructor; [|done].
        eapply addNextRequest_holds; [| |exact Hadd]; [exact Hme|].
        apply HJ; auto.
Qed.

Lemma updatePeer_holds ptr f l :
  (forall me, holds' me -> holds' (f me)) ->
  Forall holds' l -> Forall holds' (updatePeer ptr f l).
Proof.
  intros Hf Hall. unfold updatePeer. apply Forall_fmap.
  eapply Forall_impl; [exact Hall|]. intros me Hme. simpl.
  destruct (Nat.eqb _ _); auto.
Qed.

Lemma dropRequest_holds me r :
  holds' me ->
  holds' (onPeer (fun rp => withRequests rp (Requests (nextState rp) ∖ {[ r ]})) me).
Proof.
  unfold holds', holds. simpl. intros Hme r' [Hr' _]%elem_of_difference. auto.
Qed.

Lemma releasePiece_holds p l : Forall holds' l -> Forall holds' (releasePiece p l).
Proof.
  intros Hall. unfold releasePiece. apply Forall_fmap.
  eapply Forall_impl; [exact Hall|]. intros me Hme. simpl.
  by destruct (canRequestPiece _ _).
Qed.

Lemma writeBack_holds l peers :
  Forall holds' l -> Forall holds peers -> Forall holds (writeBack l peers).
Proof.
  unfold writeBack. revert peers.
  induction l as [|me l IH]; intros peers Hl Hpeers; simpl; [done|].
  apply Forall_cons in Hl as [Hme Hl].
  apply IH; [done|]. by apply Forall_insert.
Qed.

Lemma newPeersForPiece_holds peers :
  Forall holds peers -> Forall holds' (newPeersForPiece peers).
Proof.
  intros Hall. unfold newPeersForPiece.
  apply Forall_forall. intros me Hme.
  apply elem_of_lookup_imap in Hme as (k & rp & -> & Hk).
  unfold holds'. simpl. rewrite Forall_forall in Hall.
  apply Hall. by eapply list_elem_of_lookup_2.
Qed.

(** The keys of [preallocated] are pending chunks of the piece. *)
Lemma honourChunk_keys p (chunks : list ChunkSpec) acc spec acc' :
  spec ∈ chunks ->
  (forall c, is_Some (acc.2 !! c) -> c ∈ chunks) ->
  honourChunk p acc spec = Ok acc' ->
  forall c, is_Some (acc'.2 !! c) -> c ∈ chunks.
Proof.
  destruct acc as [l pre]. simpl.
  intros Hspec Hpre ([l' pre'] & H & [= <-])%bind_Ok c. simpl.
  destruct pre' as [peer|]; [|by apply Hpre].
  rewrite lookup_insert. case_decide; [by subst|by apply Hpre].
Qed.

Lemma allocatePendingChunks_holds mapOrder p peers peers' :
  (forall l, mapOrder l ≡ₚ l) ->
  (forall spec P, spec ∈ IterPendingChunks (pr_Piece p) ->
                  eligible P (index p) (requestOf p spec) -> J P (requestOf p spec)) ->
  Forall holds peers ->
  allocatePendingChunks mapOrder p peers = Ok peers' -> Forall holds peers'.
Proof.
  intros Hperm HJ Hall. unfold allocatePendingChunks, stealAndFinish.
  intros ([l1 pre] & H1 & (acc2 & H2 & ([l3 n3] & H3 & H4)%bind_Ok)%bind_Ok)%bind_Ok.
  destruct (negb _); [discriminate|]. injection H4 as <-.
  apply writeBack_holds; [|done]. apply releasePiece_holds.
  (* first pass *)
  assert (Hfirst : Forall holds' l1 /\
                   forall c, is_Some (pre !! c) -> c ∈ IterPendingChunks (pr_Piece p)).
  { revert H1.
    assert (Hsub : forall c, c ∈ IterPendingChunks (pr_Piece p) ->
                             c ∈ IterPendingChunks (pr_Piece p)) by done.
    revert Hsub.
    generalize (IterPendingChunks (pr_Piece p)) at 1 3 as todo.
    assert (H0 : Forall holds' (newPeersForPiece peers, (∅ : gmap ChunkSpec nat)).1 /\
                 forall c, is_Some ((newPeersForPiece peers,
                                     (∅ : gmap ChunkSpec nat)).2 !! c) ->
                           c ∈ IterPendingChunks (pr_Piece p)).
    { split; [by apply newPeersForPiece_holds|].
      intros c [x Hx]. simpl in Hx. by rewrite lookup_empty in Hx. }
    revert H0.
    generalize (newPeersForPiece peers, (∅ : gmap ChunkSpec nat)) as acc.
    intros acc H0 todo. revert acc H0.
    induction todo as [|spec todo IH]; intros acc [Hacc Hkeys] Hsub; simpl.
    - by intros [= ->].
    - intros (acc1 & Hstep & Hrest)%bind_Ok.
      apply (IH acc1); [|intros; apply Hsub; by right|done].
      split.
      + destruct acc as [l pre0]. simpl in *.
        apply bind_Ok in Hstep as ([l' pre'] & Hh & [= <-]). simpl.
        eapply honourExisting_holds; [|exact Hacc|exact Hh].
        intros P Hex Hcan. apply HJ; [apply Hsub; left|]. left. by split.
      + eapply honourChunk_keys; [|exact Hkeys|exact Hstep]. apply Hsub. left. }
  destruct Hfirst as [Hl1 Hkeys].
  (* second pass *)
  assert (Hsecond : Forall holds' acc2.1).
  { revert H2.
    assert (Hsub : forall c, c ∈ IterPendingChunks (pr_Piece p) ->
                             c ∈ IterPendingChunks (pr_Piece p)) by done.
    revert Hsub.
    generalize (IterPendingChunks (pr_Piece p)) at 1 3 as todo.
    change l1 with (l1, NumPendingChunks (pr_Piece p)).1 in Hl1. revert Hl1.
    generalize (l1, NumPendingChunks (pr_Piece p)) as acc.
    intros acc Hacc todo. revert acc Hacc.
    induction todo as [|chunk todo IH]; intros acc Hacc Hsub; simpl.
    - by intros [= ->].
    - intros (acc1 & Hstep & Hrest)%bind_Ok.
      apply (IH acc1); [|intros; apply Hsub; by right|done].
      destruct acc as [l n]. unfold fillChunk in Hstep. simpl in *.
      destruct (decide _); [by injection Hstep as <-|].
      apply bind_Ok in Hstep as (ls & Hsort & ([la f] & Hassign & [= <-])%bind_Ok).
      simpl. eapply assignRequest_holds; [| |exact Hassign].
      + intros P Hhas Hok. apply HJ; [apply Hsub; left|]. right. by split.
      + apply sortSlice_Permutation in Hsort. by rewrite Hsort. }
  (* third pass *)
  assert (Horder : forall entry, entry ∈ mapOrder (map_to_list pre) ->
                                 entry.1 ∈ IterPendingChunks (pr_Piece p)).
  { intros [c k] Hin. rewrite Hperm in Hin.
    apply elem_of_map_to_list in Hin. apply Hkeys. by exists k. }
  clear H2. revert H3 Horder Hsecond.
  generalize (mapOrder (map_to_list pre)) as order. intros order. revert acc2.
  induction order as [|[chunk prePeer] order IH]; intros acc Hfold Horder Hacc;
    simpl in Hfold.
  - by injection Hfold as ->.
  - apply bind_Ok in Hfold as (acc1 & Hstep & Hrest).
    apply (IH acc1); [done|intros; apply Horder; by right|].
    destruct acc as [l n]. unfold stealChunk in Hstep. simpl in *.
    apply bind_Ok in Hstep as (ls & Hsort & ([la f] & Hassign & [= <-])%bind_Ok).
    simpl. eapply assignRequest_holds; [| |exact Hassign].
    + intros P Hhas Hok.
      apply HJ; [apply (Horder (chunk, prePeer)); left|]. right. by split.
    + apply updatePeer_holds; [intros me Hme; by apply dropRequest_holds|].
      apply sortSlice_Permutation in Hsort. rewrite Hsort.
      by apply updatePeer_holds.
Qed.

End provenance.

End scheduler_provenance.

Section scheduler_requests.
Import request_strategy.

(** The piece [p] of the order is the piece [index p] of the torrent
    it points to. *)
Definition piece_of (torrents : list Torrent) (p : pieceRequestOrderPiece) : Prop :=
  exists T i, torrents !! t p = Some T /\ index p = Z.of_nat i /\
              Pieces T !! i = Some (pr_Piece p).

Lemma addPieces_order ot pieces rps :
  (addPieces ot pieces rps).1
  = imap (fun i tp => {| t := ot; index := Z.of_nat i; pr_Piece := tp |}) pieces.
Proof.
  unfold addPieces.
  enough (Hgen : forall l n order0 rps0,
             (foldl (addPiece ot) (order0, rps0)
                    (imap (fun i tp => ((n + i)%nat, tp)) l)).1
             = order0 ++ imap (fun i tp => {| t := ot; index := Z.of_nat (n + i);
                                              pr_Piece := tp |}) l).
  { apply (Hgen pieces 0%nat [] rps). }
  induction l as [|tp l IH]; intros n order0 rps0; simpl.
  - by rewrite app_nil_r.
  - rewrite (imap_ext _ (fun i tp => ((S n + i)%nat, tp))) by (intros; simpl; f_equal; lia).
    rewrite IH, <- app_assoc. simpl. f_equal. f_equal.
    apply imap_ext. intros. simpl. do 2 f_equal. lia.
Qed.

Lemma setup_pieces callCapacity torrents :
  Forall (piece_of torrents)
         (foldl (addTorrent callCapacity) (∅, [], []) torrents).1.2.
Proof.
  enough (Hgen : forall l done_ acc,
             torrents = done_ ++ l ->
             length acc.2 = length done_ ->
             Forall (piece_of torrents) acc.1.2 ->
             Forall (piece_of torrents) (foldl (addTorrent callCapacity) acc l).1.2).
  { apply (Hgen torrents [] (∅, [], [])); [done|done|constructor]. }
  induction l as [|T l IH]; intros done_ acc Heq Hlen Hacc; simpl; [done|].
  apply (IH (done_ ++ [T])).
  - by rewrite <- app_assoc.
  - destruct acc as [[m pieces] ots]. unfold addTorrent.
    destruct (match Capacity T with Some _ => _ | None => _ end) as [m' counter].
    destruct (addPieces _ _ _) as [order peers']. simpl in *.
    rewrite !length_app. simpl. lia.
  - destruct acc as [[m pieces] ots]. unfold addTorrent.
    destruct (match Capacity T with Some _ => _ | None => _ end) as [m' counter].
    destruct (addPieces _ _ _) as [order peers'] eqn:Hadd. simpl in *.
    apply Forall_app. split; [done|].
    change order with (order, peers').1. rewrite <- Hadd, addPieces_order.
    apply Forall_forall. intros p Hp.
    apply elem_of_lookup_imap in Hp as (i & tp & -> & Hi).
    exists T, i. simpl. split_and!; [|done|done].
    rewrite Heq, Hlen. rewrite lookup_app_r by lia. by rewrite Nat.sub_diag.
Qed.

(** [scheduled T P r]: [r] is a pending chunk of a piece to request of
    the torrent [T], and [P] is eligible for it. *)
Definition scheduled (T : Torrent) (P : Peer) (r : Request) : Prop :=
  exists i tp spec,
    Pieces T !! i = Some tp /\
    PieceRequest tp = true /\ NumPendingChunks tp <> 0 /\
    spec ∈ IterPendingChunks tp /\
    r = {| Index := to_uint32 (Z.of_nat i); Spec := spec |} /\
    eligible P (Z.of_nat i) r.

Definition tracked (T : Torrent) (ot : orderTorrent) : Prop :=
  mirrors T ot /\ Forall (holds (scheduled T)) (peers ot).

Lemma walkPiece_tracked mapOrder torrents st piece st' :
  (forall l, mapOrder l ≡ₚ l) ->
  piece_of torrents piece ->
  Forall2 tracked torrents (orderTorrents st) ->
  walkPiece mapOrder st piece = Ok st' ->
  Forall2 tracked torrents (orderTorrents st').
Proof.
  intros Hperm (T & i & HT & Hix & Hpiece) Hall Hwalk.
  assert (Hm : Forall2 mirrors torrents (orderTorrents st')).
  { eapply walkPiece_mirrors; [|exact Hwalk].
    eapply Forall2_impl; [exact Hall|]. by intros ? ? [? _]. }
  revert Hwalk. unfold walkPiece, deref.
  destruct (orderTorrents st !! t piece) as [ot|] eqn:Hot; [simpl|discriminate].
  destruct (claimStorage _ _ _); [|by intros [= <-]].
  destruct (negb (PieceRequest _)) eqn:Hreq; simpl; [by intros [= <-]|].
  destruct (Z.eqb_spec (NumPendingChunks (pr_Piece piece)) 0) as [|Hpending];
    [by intros [= <-]|].
  destruct (negb _ && _); [by intros [= <-]|].
  intros (peers' & Halloc & [= <-])%bind_Ok. simpl in *.
  destruct (Forall2_lookup_r _ _ _ _ _ Hall Hot) as (T' & HT' & [HTot Hpeers]).
  rewrite HT in HT'. injection HT' as <-.
  rewrite <- (list_insert_id torrents (t piece) T) by done.
  apply Forall2_insert; [done|]. split.
  - rewrite <- (list_insert_id torrents (t piece) T) in Hm by done.
    eapply Forall2_lookup_lr in Hm; [exact Hm| |].
    + apply list_lookup_insert_eq. by eapply lookup_lt_Some.
    + apply list_lookup_insert_eq. by eapply lookup_lt_Some.
  - simpl. eapply allocatePendingChunks_holds; [exact Hperm| |exact Hpeers|exact Halloc].
    intros spec P Hspec Hel. exists i, (pr_Piece piece), spec.
    apply negb_false_iff in Hreq. unfold requestOf in *. rewrite Hix in *.
    by split_and!.
Qed.

Lemma walk_tracked mapOrder torrents pieces st st' :
  (forall l, mapOrder l ≡ₚ l) ->
  Forall (piece_of torrents) pieces ->
  Forall2 tracked torrents (orderTorrents st) ->
  walk mapOrder pieces st = Ok st' ->
  Forall2 tracked torrents (orderTorrents st').
Proof.
  intros Hperm. unfold walk. revert st.
  induction pieces as [|p pieces IH]; intros st Hpieces Hall; simpl.
  - by intros [= <-].
  - apply Forall_cons in Hpieces as [Hp Hpieces].
    intros (st1 & Hstep & Hrest)%bind_Ok.
    eapply IH; [done| |exact Hrest]. by eapply walkPiece_tracked.
Qed.

Lemma addPieces_nextState ot pieces rps :
  map nextState (addPieces ot pieces rps).2 = map nextState rps.
Proof.
  unfold addPieces. generalize (imap (fun i tp => (i, tp)) pieces) as l. intros l.
  change (map nextState rps)
    with (map nextState ([] : list pieceRequestOrderPiece, rps).2).
  generalize ([] : list pieceRequestOrderPiece, rps) as acc.
  induction l as [|[i tp] l IH]; intros [order rps0]; simpl; [done|].
  rewrite IH. simpl. destruct (PieceRequest tp && _); [|done].
  rewrite map_map. apply map_ext. intros rp. by destruct (canRequestPiece _ _).
Qed.

(** No peer holds a request when the walk starts. *)
Lemma setup_no_requests callCapacity torrents :
  Forall (fun ot => Forall (fun rp => Requests (nextState rp) = ∅) (peers ot))
         (foldl (addTorrent callCapacity) (∅, [], []) torrents).2.
Proof.
  enough (Hgen : forall l acc,
             Forall (fun ot => Forall (fun rp => Requests (nextState rp) = ∅) (peers ot))
                    acc.2 ->
             Forall (fun ot => Forall (fun rp => Requests (nextState rp) = ∅) (peers ot))
                    (foldl (addTorrent callCapacity) acc l).2).
  { apply Hgen. constructor. }
  induction l as [|T l IH]; intros acc Hacc; simpl; [done|].
  apply IH. destruct acc as [[m pieces] ots]. unfold addTorrent.
  destruct (match Capacity T with Some _ => _ | None => _ end) as [m' counter].
  destruct (addPieces _ _ _) as [order peers'] eqn:Hadd. simpl in *.
  apply Forall_app. split; [done|]. constructor; [|constructor]. simpl.
  pose proof (addPieces_nextState (length ots) (Pieces T)
                (map (fun p => {| rp_Peer := p;
                                  nextState := {| Interested := false; Requests := ∅ |};
                                  requestablePiecesRemaining := 0 |}) (Peers T))) as Hns.
  rewrite Hadd in Hns. simpl in Hns. rewrite map_map in Hns. simpl in Hns.
  apply Forall_forall. intros rp Hrp.
  assert (Hin : nextState rp ∈ map nextState peers').
  { change (map ?f ?l) with (f <$> l). by apply list_elem_of_fmap_2. }
  rewrite Hns in Hin. change (map ?f ?l) with (f <$> l) in Hin.
  apply list_elem_of_fmap in Hin as (P & -> & _). done.
Qed.

Lemma setup_tracked callCapacity torrents :
  Forall2 tracked torrents (foldl (addTorrent callCapacity) (∅, [], []) torrents).2.
Proof.
  pose proof (setup_mirrors callCapacity torrents) as Hm.
  pose proof (setup_no_requests callCapacity torrents) as Hn.
  revert Hm Hn. generalize (foldl (addTorrent callCapacity) (∅, [], []) torrents).2.
  intros ots Hm. induction Hm as [|T ot torrents' ots' Hhead Htail IH]; intros Hn.
  - constructor.
  - apply Forall_cons in Hn as [Hot Hn]. constructor; [|by apply IH].
    split; [done|]. eapply Forall_impl; [exact Hot|].
    intros rp Hrp r Hr. rewrite Hrp in Hr. by apply elem_of_empty in Hr.
Qed.

(** Whatever request a next state holds was given to a peer with that
    id, is a pending chunk of a piece to request of the torrent of that
    peer, and the peer was eligible for it. *)
Lemma DoRequests_scheduled mapOrder callCapacity counters torrents results :
  (forall l, mapOrder l ≡ₚ l) ->
  DoRequests mapOrder callCapacity counters torrents = Ok results ->
  forall id st r, results !! id = Some st -> r ∈ Requests st ->
    exists T P, T ∈ torrents /\ P ∈ Peers T /\ Id P = id /\ scheduled T P r.
Proof.
  unfold DoRequests. intros Hperm Hrun id st r Hlook Hr.
  pose proof (setup_tracked callCapacity torrents) as Hsetup.
  pose proof (setup_pieces callCapacity torrents) as Hpieces.
  destruct (foldl (addTorrent callCapacity) (∅, [], []) torrents) as [[m pieces] ots].
  simpl in Hsetup, Hpieces.
  apply bind_Ok in Hrun as (sorted & Hsort & (st1 & Hwalk & Hemit)%bind_Ok).
  apply sortSlice_Permutation in Hsort. rewrite <- Hsort in Hpieces.
  eapply walk_tracked in Hwalk; [|exact Hperm|exact Hpieces|exact Hsetup].
  destruct (emit_lookup _ _ _ _ Hemit Hlook) as (ot & rp & Hot & Hrp & <- & <-).
  apply list_elem_of_lookup in Hot as [k Hk].
  destruct (Forall2_lookup_r _ _ _ _ _ Hwalk Hk) as (T & HT & [[_ Hpeers] Hholds]).
  exists T, (rp_Peer rp). split_and!.
  - by eapply list_elem_of_lookup_2.
  - rewrite <- Hpeers. change (map ?f ?l) with (f <$> l). by apply list_elem_of_fmap_2.
  - done.
  - rewrite Forall_forall in Hholds. by apply Hholds.
Qed.

(** Every request [DoRequests] schedules is a pending chunk of a piece
    to request, in the torrent of a peer that has the id the request
    is returned under. *)
Theorem scheduled_requests_are_pending mapOrder callCapacity counters torrents results :
  (forall l, mapOrder l ≡ₚ l) ->
  DoRequests mapOrder callCapacity counters torrents = Ok results ->
  forall id st r, results !! id = Some st -> r ∈ Requests st ->
    exists T P i tp,
      T ∈ torrents /\ P ∈ Peers T /\ Id P = id /\
      Pieces T !! i = Some tp /\
      PieceRequest tp = true /\ NumPendingChunks tp <> 0 /\
      Spec r ∈ IterPendingChunks tp /\ Index r = to_uint32 (Z.of_nat i).
Proof.
  intros Hperm Hrun id st r Hlook Hr.
  destruct (DoRequests_scheduled _ _ _ _ _ Hperm Hrun id st r Hlook Hr)
    as (T & P & HT & HP & Hid & i & tp & spec & ? & ? & ? & ? & -> & _).
  exists T, P, i, tp. by split_and!.
Qed.

(** A request is scheduled only for a peer that reported it as an
    existing request and can request the piece, or that has the piece
    and is not choking or has the piece allowed fast. *)
Theorem scheduled_requests_are_eligible mapOrder callCapacity counters torrents results :
  (forall l, mapOrder l ≡ₚ l) ->
  DoRequests mapOrder callCapacity counters torrents = Ok results ->
  forall id st r, results !! id = Some st -> r ∈ Requests st ->
    exists T P i,
      T ∈ torrents /\ P ∈ Peers T /\ Id P = id /\
      Index r = to_uint32 (Z.of_nat i) /\
      ((reportsExisting P r = true /\ canRequestPiece P (Z.of_nat i) = true) \/
       (HasPiece P (Z.of_nat i) = true /\
        (pieceAllowedFastOrDefault P (Z.of_nat i) = true \/ Choking P = false))).
Proof.
  intros Hperm Hrun id st r Hlook Hr.
  destruct (DoRequests_scheduled _ _ _ _ _ Hperm Hrun id st r Hlook Hr)
    as (T & P & HT & HP & Hid & i & tp & spec & ? & ? & ? & ? & -> & Hel).
  exists T, P, i. by split_and!.
Qed.

Lemma scheduled_requests_are_pending_witness :
  (forall l : list (ChunkSpec * nat), id l ≡ₚ l) /\
  exists results,
    DoRequests id (fun _ => None) (fun _ => 0) [scenario.stealing] = Ok results /\
    forall id st r, results !! id = Some st -> r ∈ Requests st ->
      exists T P i tp,
        T ∈ [scenario.stealing] /\ P ∈ Peers T /\ Id P = id /\
        Pieces T !! i = Some tp /\
        PieceRequest tp = true /\ NumPendingChunks tp <> 0 /\
        Spec r ∈ IterPendingChunks tp /\ Index r = to_uint32 (Z.of_nat i).
Proof.
  split; [done|].
  destruct (has_summary_Ok _ _ stealing_run) as [results Hrun].
  exists results. split; [exact Hrun|].
  exact (scheduled_requests_are_pending id _ _ _ _ (fun l => reflexivity l) Hrun).
Defined.

Lemma scheduled_requests_are_eligible_witness :
  (forall l : list (ChunkSpec * nat), id l ≡ₚ l) /\
  exists results,
    DoRequests id (fun _ => None) (fun _ => 0) [scenario.stealing] = Ok results /\
    forall id st r, results !! id = Some st -> r ∈ Requests st ->
      exists T P i,
        T ∈ [scenario.stealing] /\ P ∈ Peers T /\ Id P = id /\
        Index r = to_uint32 (Z.of_nat i) /\
        ((reportsExisting P r = true /\ canRequestPiece P (Z.of_nat i) = true) \/
         (HasPiece P (Z.of_nat i) = true /\
          (pieceAllowedFastOrDefault P (Z.of_nat i) = true \/ Choking P = false))).
Proof.
  split; [done|].
  destruct (has_summary_Ok _ _ stealing_run) as [results Hrun].
  exists results. split; [exact Hrun|].
  exact (scheduled_requests_are_eligible id _ _ _ _ (fun l => reflexivity l) Hrun).
Defined.

(** ** The storage counters over a walk *)

Lemma claimStorage_bounds h left length h' c :
  claimStorage h left length = Some h' ->
  0 <= length -> 0 <= h c < 2 ^ 63 -> 0 <= h' c <= h c.
Proof.
  unfold claimStorage. destruct left as [counter|]; [|intros [= <-]; lia].
  destruct (Z.ltb_spec (h counter) length); [discriminate|].
  intros [= <-] Hlen Hc. destruct (Z.eqb_spec c counter) as [->|]; [|lia].
  rewrite wrap64_small by (unfold int64_range; lia). lia.
Qed.

Lemma walkPiece_heap mapOrder st piece st' :
  walkPiece mapOrder st piece = Ok st' ->
  heap st' = heap st \/
  exists ot, orderTorrents st !! t piece = Some ot /\
             claimStorage (heap st) (storageLeft ot) (Length (pr_Piece piece))
             = Some (heap st').
Proof.
  unfold walkPiece, deref.
  destruct (orderTorrents st !! t piece) as [ot|] eqn:Hot; [simpl|discriminate].
  destruct (claimStorage _ _ _) as [h'|] eqn:Hclaim; [|intros [= <-]; by left].
  intros Hwalk. right. exists ot. split; [done|]. f_equal.
  destruct (negb _ || _); [by injection Hwalk as <-|].
  destruct (negb _ && _); [by injection Hwalk as <-|].
  by apply bind_Ok in Hwalk as (peers' & _ & [= <-]).
Qed.

(** The walk never overdraws a storage counter: with piece lengths
    that are not negative, a counter that starts between 0 and 2^63
    ends between 0 and the value it started with. *)
Theorem storage_never_overdrawn mapOrder pieces st st' counter :
  walk mapOrder pieces st = Ok st' ->
  (forall p, p ∈ pieces -> 0 <= Length (pr_Piece p)) ->
  0 <= heap st counter < 2 ^ 63 ->
  0 <= heap st' counter <= heap st counter.
Proof.
  unfold walk. revert st. induction pieces as [|p pieces IH]; intros st; simpl.
  - intros [= <-] _ Hc. lia.
  - intros (st1 & Hstep & Hrest)%bind_Ok Hlen Hc.
    assert (H1 : 0 <= heap st1 counter <= heap st counter).
    { destruct (walkPiece_heap _ _ _ _ Hstep) as [->|(ot & _ & Hclaim)]; [lia|].
      eapply claimStorage_bounds; [exact Hclaim| |done]. apply Hlen. left. }
    specialize (IH st1 Hrest ltac:(intros; apply Hlen; by right) ltac:(lia)). lia.
Qed.

Lemma storage_never_overdrawn_witness :
  exists st',
    walk id [scenario.sharing_piece 1; scenario.sharing_piece 0] scenario.sharing_state
    = Ok st' /\
    0 <= heap st' 100 <= heap scenario.sharing_state 100.
Proof.
  destruct sharing_walk as (st' & Hwalk & _).
  exists st'. split; [exact Hwalk|].
  apply (storage_never_overdrawn id _ _ _ 100 Hwalk).
  - intros p Hp. repeat (apply elem_of_cons in Hp as [->|Hp]; [by vm_compute|]).
    by apply elem_of_nil in Hp.
  - by vm_compute.
Defined.

End scheduler_requests.
